(** * Homa for Linux: the shared definitions of [homa_impl.h]

    A shallow embedding of the wire formats, the message descriptors, the
    RPC record and the inline helpers declared in [homa_impl.h], together
    with the properties the protocol description states about them.

    C integers are mathematical integers ([Z]) with every truncation and
    wrap-around written out; packed structs are lists of named fields whose
    offsets are the running sums of the sizes before them. *)

From Stdlib Require Import String ZArith List Lia Bool Sorted.
Import ListNotations.
Open Scope Z_scope.

Set Warnings "-register-all".

(** * Definitions *)

(** ** Constants ([#define]s of homa_impl.h) *)

Definition HOMA_MAX_MESSAGE_SIZE : Z := 1000000.
Definition HOMA_MAX_HEADER : Z := 64.
Definition HOMA_NUM_PRIORITIES : nat := 8.
Definition INT_MAX : Z := 2147483647.
Definition INT_MIN : Z := -2147483648.

(** ** Packed wire structs *)

Module Wire.

(** The integer types [homa_impl.h] declares members with.  The kernel's
    [__be16], [__be32] and [__be64] are 2-, 4- and 8-byte integers like
    [__u16], [__u32] and [__u64]; the [be] announces that the member holds
    a big-endian value.  The packet headers use [__u8], [char] and the
    [__be] types only; [struct homa_rpc] keeps [dport] and [id] as [__u16]
    and [__u64]. *)
Inductive scalar : Type :=
| S_u8
| S_char
| S_u16
| S_u32
| S_u64
| S_be16
| S_be32
| S_be64.

Inductive ctype : Type :=
| T_scalar (s : scalar)
| T_array (elt : ctype) (n : nat)
| T_struct (fields : list (string * ctype)).

Definition scalar_size (s : scalar) : Z :=
  match s with
  | S_u8 => 1
  | S_char => 1
  | S_u16 => 2
  | S_u32 => 4
  | S_u64 => 8
  | S_be16 => 2
  | S_be32 => 4
  | S_be64 => 8
  end.

(** [sizeof] for [__attribute__((packed))] types: no padding anywhere. *)
Fixpoint sizeof (t : ctype) : Z :=
  match t with
  | T_scalar s => scalar_size s
  | T_array elt n => Z.of_nat n * sizeof elt
  | T_struct fields =>
      (fix total (l : list (string * ctype)) : Z :=
         match l with
         | [] => 0
         | (_, ty) :: rest => sizeof ty + total rest
         end) fields
  end.

(** Offset and type of the member [name] in a packed member list. *)
Fixpoint member (fields : list (string * ctype)) (name : string)
  : option (Z * ctype) :=
  match fields with
  | [] => None
  | (n, ty) :: rest =>
      if String.eqb n name then Some (0, ty)
      else match member rest name with
           | Some (o, ty') => Some (sizeof ty + o, ty')
           | None => None
           end
  end.

(** [offsetof(t, a.b.c)] for a path of member names. *)
Fixpoint offsetof (t : ctype) (path : list string) : option Z :=
  match path with
  | [] => Some 0
  | name :: rest =>
      match t with
      | T_struct fields =>
          match member fields name with
          | Some (o, ty) =>
              match offsetof ty rest with
              | Some o' => Some (o + o')
              | None => None
              end
          | None => None
          end
      | _ => None
      end
  end.

(** The type found at the end of a member path. *)
Fixpoint typeof (t : ctype) (path : list string) : option ctype :=
  match path with
  | [] => Some t
  | name :: rest =>
      match t with
      | T_struct fields =>
          match member fields name with
          | Some (_, ty) => typeof ty rest
          | None => None
          end
      | _ => None
      end
  end.

(** The bytes a member occupies: first and last offset. *)
Definition member_bytes (t : ctype) (path : list string) : option (Z * Z) :=
  match offsetof t path, typeof t path with
  | Some o, Some ty => Some (o, o + sizeof ty - 1)
  | _, _ => None
  end.

Definition be16 := T_scalar S_be16.
Definition be32 := T_scalar S_be32.
Definition be64 := T_scalar S_be64.
Definition u8 := T_scalar S_u8.

(** [struct common_header] *)
Definition common_header : ctype :=
  T_struct
    [ ("sport", be16);
      ("dport", be16);
      ("unused1", be32);
      ("unused2", be32);
      ("doff", u8);
      ("type", u8);
      ("unused3", be16);
      ("checksum", be16);
      ("unused4", be16);
      ("id", be64) ]%string.

(** [struct data_segment]; [char data[0]] is a zero-length array. *)
Definition data_segment : ctype :=
  T_struct
    [ ("offset", be32);
      ("segment_length", be32);
      ("data", T_array (T_scalar S_char) 0) ]%string.

(** [struct data_header] *)
Definition data_header : ctype :=
  T_struct
    [ ("common", common_header);
      ("message_length", be32);
      ("incoming", be32);
      ("cutoff_version", be16);
      ("retransmit", u8);
      ("pad", u8);
      ("seg", data_segment) ]%string.

(** [struct grant_header] *)
Definition grant_header : ctype :=
  T_struct
    [ ("common", common_header);
      ("offset", be32);
      ("priority", u8) ]%string.

(** [struct resend_header] *)
Definition resend_header : ctype :=
  T_struct
    [ ("common", common_header);
      ("offset", be32);
      ("length", be32);
      ("priority", u8) ]%string.

(** [struct restart_header] *)
Definition restart_header : ctype :=
  T_struct [ ("common", common_header) ]%string.

(** [struct busy_header] *)
Definition busy_header : ctype :=
  T_struct [ ("common", common_header) ]%string.

(** [struct cutoffs_header] *)
Definition cutoffs_header : ctype :=
  T_struct
    [ ("common", common_header);
      ("unsched_cutoffs", T_array be32 HOMA_NUM_PRIORITIES);
      ("cutoff_version", be16) ]%string.

(** [struct freeze_header] *)
Definition freeze_header : ctype :=
  T_struct [ ("common", common_header) ]%string.

(** [enum homa_packet_type] *)
Inductive homa_packet_type : Type :=
| DATA | GRANT | RESEND | RESTART | BUSY | CUTOFFS | FREEZE | BOGUS.

Definition opcode (t : homa_packet_type) : Z :=
  match t with
  | DATA => 20 | GRANT => 21 | RESEND => 22 | RESTART => 23
  | BUSY => 24 | CUTOFFS => 25 | FREEZE => 26 | BOGUS => 27
  end.

(** The header struct that goes with each of the seven real packet types. *)
Definition header_of (t : homa_packet_type) : option ctype :=
  match t with
  | DATA => Some data_header
  | GRANT => Some grant_header
  | RESEND => Some resend_header
  | RESTART => Some restart_header
  | BUSY => Some busy_header
  | CUTOFFS => Some cutoffs_header
  | FREEZE => Some freeze_header
  | BOGUS => None
  end.

Definition packet_headers : list ctype :=
  [ data_header; grant_header; resend_header; restart_header;
    busy_header; cutoffs_header; freeze_header ].

(** The condition of each [_Static_assert(sizeof(struct x) <=
    HOMA_MAX_HEADER, ...)]. *)
Definition static_assert_fits (t : ctype) : bool :=
  sizeof t <=? HOMA_MAX_HEADER.

(** The condition of the [_Static_assert] on the DATA prefix:
    [((sizeof(struct data_header) - sizeof(struct data_segment)) & 0x3) == 0]. *)
Definition static_assert_prefix_aligned : bool :=
  Z.land (sizeof data_header - sizeof data_segment) 3 =? 0.

(** The TCP header as laid out by RFC 793 (the kernel's [struct tcphdr]);
    the 16-bit unit holding the data offset, the reserved bits and the flags
    is listed as its two bytes, the first of which carries the data offset
    in its high-order four bits. *)
Definition tcphdr : ctype :=
  T_struct
    [ ("source", be16);
      ("dest", be16);
      ("seq", be32);
      ("ack_seq", be32);
      ("doff", u8);
      ("flags", u8);
      ("window", be16);
      ("check", be16);
      ("urg_ptr", be16) ]%string.

(** [homa_set_doff]: the value assigned to [h->common.doff].  The right-hand
    side is a [size_t]; the assignment to a [__u8] keeps its low 8 bits. *)
Definition homa_set_doff_value : Z :=
  Z.shiftl (sizeof data_header - sizeof data_segment) 2 mod 256.

End Wire.

(** ** Byte order of the wire fields *)

Module Codec.
Import Wire.

(** Byte order of the machine that runs the code. *)
Inductive endian : Type := LittleEndian | BigEndian.

Definition is_byte (b : Z) : Prop := 0 <= b < 256.

(** The [w] bytes of an unsigned integer, least significant first. *)
Fixpoint le_bytes (w : nat) (v : Z) : list Z :=
  match w with
  | O => []
  | S w' => v mod 256 :: le_bytes w' (v / 256)
  end.

(** The same, most significant first: network order. *)
Definition be_bytes (w : nat) (v : Z) : list Z := rev (le_bytes w v).

Fixpoint le_value (bs : list Z) : Z :=
  match bs with
  | [] => 0
  | b :: rest => b + 256 * le_value rest
  end.

Definition be_value (bs : list Z) : Z := le_value (rev bs).

(** A plain C store or load of a [w]-byte integer on the host. *)
Definition store (host : endian) (w : nat) (v : Z) : list Z :=
  match host with
  | LittleEndian => le_bytes w v
  | BigEndian => be_bytes w v
  end.

Definition load (host : endian) (bs : list Z) : Z :=
  match host with
  | LittleEndian => le_value bs
  | BigEndian => be_value bs
  end.

(** The kernel's byte swap ([swab16], [swab32]). *)
Definition swab (w : nat) (v : Z) : Z := le_value (be_bytes w v).

(** [cpu_to_be*] and [be*_to_cpu]: the identity on a big-endian host, a
    byte swap on a little-endian one. *)
Definition cpu_to_be (host : endian) (w : nat) (v : Z) : Z :=
  match host with
  | BigEndian => v
  | LittleEndian => swab w v
  end.

Definition be_to_cpu (host : endian) (w : nat) (v : Z) : Z :=
  match host with
  | BigEndian => v
  | LittleEndian => swab w v
  end.

Definition htons (host : endian) : Z -> Z := cpu_to_be host 2.
Definition htonl (host : endian) : Z -> Z := cpu_to_be host 4.
Definition ntohs (host : endian) : Z -> Z := be_to_cpu host 2.
Definition ntohl (host : endian) : Z -> Z := be_to_cpu host 4.

(** Conversion of an unsigned 32-bit value to [int]. *)
Definition to_int (x : Z) : Z := (x + 2 ^ 31) mod 2 ^ 32 - 2 ^ 31.

(** The [w] bytes of a packet that start at offset [off]. *)
Definition bytes_at (pkt : list Z) (off : Z) (w : nat) : list Z :=
  firstn w (skipn (Z.to_nat off) pkt).

Definition offset_or_zero (o : option Z) : Z :=
  match o with
  | Some z => z
  | None => 0
  end.

(** [homa_data_offset]: [ntohl] of the [seg.offset] member of the
    [data_header] at the start of the transport header, returned as [int]. *)
Definition homa_data_offset (host : endian) (pkt : list Z) : Z :=
  to_int
    (ntohl host
       (load host
          (bytes_at pkt
             (offset_or_zero (offsetof data_header ["seg"; "offset"]%string))
             4))).

(** [homa_set_doff] on the bytes of a [data_header]: the byte of
    [common.doff] is overwritten, every other byte is untouched. *)
Definition homa_set_doff (h : list Z) : list Z :=
  let o :=
    Z.to_nat (offset_or_zero (offsetof data_header ["common"; "doff"]%string))
  in
  firstn o h ++ homa_set_doff_value :: skipn (S o) h.

(** A scalar member of a header, named by its path. *)
Record leaf : Type := mkLeaf {
  leaf_path : list string;
  leaf_type : scalar
}.

(** The scalar members of a type, in memory order. *)
Fixpoint leaves (prefix : list string) (t : ctype) : list leaf :=
  match t with
  | T_scalar s => [mkLeaf prefix s]
  | T_array elt n => concat (repeat (leaves prefix elt) n)
  | T_struct fields =>
      (fix walk (l : list (string * ctype)) : list leaf :=
         match l with
         | [] => []
         | (name, ty) :: rest => leaves (prefix ++ [name]) ty ++ walk rest
         end) fields
  end.

Definition width (l : leaf) : nat := Z.to_nat (scalar_size (leaf_type l)).

Definition in_range (l : leaf) (v : Z) : Prop :=
  0 <= v < 256 ^ Z.of_nat (width l).

Definition path_eqb (p q : list string) : bool :=
  if list_eq_dec string_dec p q then true else false.

Definition is_id (l : leaf) : bool :=
  path_eqb (leaf_path l) ["common"; "id"]%string.

Definition multi_byte (l : leaf) : bool := (1 <? width l)%nat.

Inductive conversion : Type := NetworkOrder | NoConversion.

(** The byte order a member's declared type announces: network order for
    the [__be] types, none for the others. *)
Definition declared_order (s : scalar) : conversion :=
  match s with
  | S_be16 | S_be32 | S_be64 => NetworkOrder
  | _ => NoConversion
  end.

(** The conversion a header member goes through, read off the struct
    declarations: the one its declared type announces, except for
    [common_header.id], declared [__be64] but, by its comment, "stored in
    client host byte order". *)
Definition conversion_of (l : leaf) : conversion :=
  if is_id l then NoConversion else declared_order (leaf_type l).

(** A member wider than one byte is declared with a [__be] type. *)
Definition wide_is_be (l : leaf) : bool :=
  negb (multi_byte l) ||
  match declared_order (leaf_type l) with
  | NetworkOrder => true
  | NoConversion => false
  end.

(** Modelled from the spec: writing one member of a header that overlays
    the packet buffer; converted members go through [htons]/[htonl]. *)
Definition put_field (host : endian) (l : leaf) (v : Z) : list Z :=
  match conversion_of l with
  | NetworkOrder => store host (width l) (cpu_to_be host (width l) v)
  | NoConversion => store host (width l) v
  end.

(** Modelled from the spec: reading one member; converted members go
    through [ntohs]/[ntohl], as [homa_data_offset] does for [seg.offset]. *)
Definition get_field (host : endian) (l : leaf) (bs : list Z) : Z :=
  match conversion_of l with
  | NetworkOrder => be_to_cpu host (width l) (load host bs)
  | NoConversion => load host bs
  end.

(** Modelled from the spec: the wire image of a header, member by member. *)
Fixpoint encode (host : endian) (ls : list leaf) (vs : list Z) : list Z :=
  match ls, vs with
  | l :: ls', v :: vs' => put_field host l v ++ encode host ls' vs'
  | _, _ => []
  end.

(** Modelled from the spec: the member values read back from a wire image. *)
Fixpoint decode (host : endian) (ls : list leaf) (bs : list Z) : list Z :=
  match ls with
  | [] => []
  | l :: ls' =>
      get_field host l (firstn (width l) bs)
        :: decode host ls' (skipn (width l) bs)
  end.

(** What the wire holds for a member according to the description:
    network order for the multi-byte members other than the id, the
    sender's own byte order for the id, the byte itself for one-byte
    members. *)
Definition wire_image (sender : endian) (l : leaf) (v : Z) : list Z :=
  if is_id l then store sender (width l) v
  else be_bytes (width l) v.

(** The value a receiver obtains for a member written by [sender]. *)
Definition received (sender receiver : endian) (l : leaf) (v : Z) : Z :=
  if is_id l then load receiver (store sender (width l) v) else v.

Fixpoint zip_with {A B C : Type} (f : A -> B -> C) (xs : list A)
  (ys : list B) : list C :=
  match xs, ys with
  | x :: xs', y :: ys' => f x y :: zip_with f xs' ys'
  | _, _ => []
  end.

Definition header_leaves (t : ctype) : list leaf := leaves [] t.

(** Offset of the [k]-th scalar member within the packed image. *)
Fixpoint offset_of_leaf (ls : list leaf) (k : nat) : nat :=
  match k, ls with
  | S k', l :: ls' => width l + offset_of_leaf ls' k'
  | _, _ => 0%nat
  end.

(** Index of [seg.offset] among the scalar members of [data_header]. *)
Definition seg_offset_index : nat := 15.

(** Paths of the multi-byte members of a header that are not converted. *)
Definition unconverted_members (t : ctype) : list (list string) :=
  map leaf_path
    (filter (fun l => multi_byte l &&
                      match conversion_of l with
                      | NoConversion => true
                      | NetworkOrder => false
                      end)
       (header_leaves t)).

(** Paths of the members of a header that are converted to network order. *)
Definition converted_members (t : ctype) : list (list string) :=
  map leaf_path
    (filter (fun l => match conversion_of l with
                      | NoConversion => false
                      | NetworkOrder => true
                      end)
       (header_leaves t)).

(** The members the description names as converted, per packet type. *)
Definition listed_common : list (list string) :=
  [ ["common"; "sport"]; ["common"; "dport"] ]%string.

Definition listed_own (t : homa_packet_type) : list (list string) :=
  match t with
  | DATA => [ ["message_length"]; ["incoming"]; ["cutoff_version"];
              ["seg"; "offset"]; ["seg"; "segment_length"] ]%string
  | GRANT => [ ["offset"] ]%string
  | RESEND => [ ["offset"]; ["length"] ]%string
  | CUTOFFS => [ ["unsched_cutoffs"]; ["cutoff_version"] ]%string
  | _ => []
  end.

Definition listed_members (t : homa_packet_type) : list (list string) :=
  listed_common ++ listed_own t.

(** Member values of a sample GRANT header, in member order. *)
Definition sample_grant : list Z :=
  [1000; 2000; 0; 0; 0; 21; 0; 0; 0; 258; 70000; 3].

(** Member values of a sample DATA header, in member order: a 3000-byte
    message, 2800 bytes incoming, the segment at offset 1400 holding 4
    bytes. *)
Definition sample_data : list Z :=
  [1000; 2000; 0; 0; 160; 20; 0; 0; 0; 258; 3000; 2800; 7; 0; 0; 1400; 4].

Definition sample_payload : list Z := [222; 173; 190; 239].

End Codec.

(** ** The pacer's fast-path hook *)

Module Pacer.

(** The members of [struct homa] that the pacer and its hook use.
    [throttled_rpcs] holds the handles of the throttled RPCs, head first. *)
Record homa : Type := mkHoma {
  throttled_rpcs : list Z;
  throttle_min_bytes : Z;
  pacer_exit : bool;
  pacer_active : Z;
  link_idle_time : Z;
  max_nic_queue_ns : Z;
  max_nic_queue_cycles : Z;
  cycles_per_kbyte : Z
}.

(** Conversion to the unsigned 64-bit type of [cycles_t]. *)
Definition to_u64 (x : Z) : Z := x mod 2 ^ 64.

(** [list_first_or_null_rcu]: the first entry of a list, or NULL. *)
Definition list_first_or_null_rcu {A : Type} (l : list A) : option A :=
  match l with
  | [] => None
  | x :: _ => Some x
  end.

(** Calls of functions defined outside this header. *)
Inductive call : Type :=
| Call_homa_pacer_xmit (softirq : Z).

(** The value of [get_cycles() + homa->max_nic_queue_cycles]: the [int] is
    converted to [cycles_t] and the sum wraps at 64 bits. *)
Definition queue_limit (now : Z) (h : homa) : Z :=
  to_u64 (now + max_nic_queue_cycles h).

(** The value of [atomic_long_read(&homa->link_idle_time)] in the
    comparison: the [long] is converted to [cycles_t]. *)
Definition idle_time (h : homa) : Z := to_u64 (link_idle_time h).

(** A sample state: two throttled RPCs, a queue limit of 1000 cycles. *)
Definition sample_homa (idle : Z) : homa :=
  mkHoma [7; 9] 200 false 0 idle 500 1000 8000.

Section CheckPacer.

(** [homa_pacer_xmit] is only declared in this header: its effect on the
    state is left open. *)
Variable homa_pacer_xmit : homa -> Z -> homa.

(** [check_pacer(homa, softirq)], with the value [now] that [get_cycles()]
    returns; the result is the state afterwards and the calls made. *)
Definition check_pacer (now : Z) (h : homa) (softirq : Z) : homa * list call :=
  match list_first_or_null_rcu (throttled_rpcs h) with
  | None => (h, [])
  | Some _ =>
      if queue_limit now h <? idle_time h then (h, [])
      else (homa_pacer_xmit h softirq, [Call_homa_pacer_xmit softirq])
  end.

End CheckPacer.

End Pacer.

(** ** Message descriptors and the RPC record *)

Module homa_message_out.

(** [struct homa_message_out].  [packets] holds the number of message bytes
    carried by each packet buffer, in offset order; [next_packet] is the
    index of the next buffer to transmit, and an index past the end stands
    for NULL (the entire message has been sent).  A negative [length] means
    the descriptor is not in use. *)
Record t : Type := mk {
  length : Z;
  packets : list Z;
  next_packet : nat;
  unscheduled : Z;
  granted : Z;
  sched_priority : Z
}.

Definition unused : t := mk (-1) [] 0 0 0 0.

End homa_message_out.

Module homa_message_in.

(** [struct homa_message_in].  [packets] holds the (offset, length) of the
    DATA segments received so far, sorted by offset.  A negative
    [total_length] means the descriptor is not in use. *)
Record t : Type := mk {
  total_length : Z;
  packets : list (Z * Z);
  bytes_remaining : Z;
  incoming : Z;
  priority : Z;
  scheduled : bool;
  possibly_in_grant_queue : bool
}.

Definition unused : t := mk (-1) [] 0 0 0 false false.

End homa_message_in.

Module Rpc.

(** The [state] enum of [struct homa_rpc]. *)
Inductive rpc_state : Type :=
| RPC_OUTGOING
| RPC_INCOMING
| RPC_READY
| RPC_IN_SERVICE
| RPC_CLIENT_DONE.

Definition state_value (s : rpc_state) : Z :=
  match s with
  | RPC_OUTGOING => 5
  | RPC_INCOMING => 6
  | RPC_READY => 7
  | RPC_IN_SERVICE => 8
  | RPC_CLIENT_DONE => 9
  end.

(** [struct homa_rpc], without the list links. *)
Record homa_rpc : Type := mkRpc {
  dport : Z;
  id : Z;
  state : rpc_state;
  is_client : bool;
  error : Z;
  msgin : homa_message_in.t;
  msgout : homa_message_out.t;
  silent_ticks : Z;
  num_resends : Z
}.

Definition set_state (s : rpc_state) (r : homa_rpc) : homa_rpc :=
  mkRpc (dport r) (id r) s (is_client r) (error r) (msgin r) (msgout r)
    (silent_ticks r) (num_resends r).

Definition set_error (e : Z) (r : homa_rpc) : homa_rpc :=
  mkRpc (dport r) (id r) (state r) (is_client r) e (msgin r) (msgout r)
    (silent_ticks r) (num_resends r).

Definition set_msgin (m : homa_message_in.t) (r : homa_rpc) : homa_rpc :=
  mkRpc (dport r) (id r) (state r) (is_client r) (error r) m (msgout r)
    (silent_ticks r) (num_resends r).

Definition set_msgout (m : homa_message_out.t) (r : homa_rpc) : homa_rpc :=
  mkRpc (dport r) (id r) (state r) (is_client r) (error r) (msgin r) m
    (silent_ticks r) (num_resends r).

Definition heard_from_peer (r : homa_rpc) : homa_rpc :=
  mkRpc (dport r) (id r) (state r) (is_client r) (error r) (msgin r)
    (msgout r) 0 0.




(** *** Outgoing messages *)

Fixpoint sum (l : list Z) : Z :=
  match l with
  | [] => 0
  | x :: rest => x + sum rest
  end.

(** Offset within the message of the first byte of packet buffer [i]. *)
Definition packet_offset (m : homa_message_out.t) (i : nat) : Z :=
  sum (firstn i (homa_message_out.packets m)).

(** Bytes of the message in the buffers already handed to transmission:
    the offset of [next_packet]. *)
Definition bytes_sent (m : homa_message_out.t) : Z :=
  packet_offset m (homa_message_out.next_packet m).

(** Modelled from the spec: [homa_message_out_init] is only declared in
    [homa_impl.h].  Section 4.2: the message is split into packet buffers of
    a fixed size, linked in offset order.  [count] buffers are produced from
    the [len] bytes that remain. *)
Fixpoint split_message (count : nat) (len max_pkt : Z) : list Z :=
  match count with
  | O => []
  | S count' => Z.min len max_pkt :: split_message count' (len - max_pkt) max_pkt
  end.

Definition packet_count (len max_pkt : Z) : nat :=
  Z.to_nat ((len + max_pkt - 1) / max_pkt).

(** Modelled from the spec: [homa_message_out_init] (section 4.2).  [unsched]
    is the initial unscheduled window that construction computes (a
    priority-cutoff boundary or the RTT bytes rounded up to full packets);
    [granted] is initialised to it, and never exceeds [length] (section 3
    and the comment of [granted]), whereas [unscheduled] may be larger than
    [length] (the comment of [unscheduled]). *)
Definition homa_message_out_init (len max_pkt unsched : Z)
  : homa_message_out.t :=
  homa_message_out.mk len
    (split_message (packet_count len max_pkt) len max_pkt)
    0 unsched (Z.min unsched len) 0.

(** Modelled from the spec: the GRANT rule of section 4.1, [homa_grant_pkt]:
    widen [granted] if the packet's offset exceeds the current value
    ([granted] never exceeds [length]); take the scheduled priority from
    the packet. *)
Definition grant_msgout (offset prio : Z) (m : homa_message_out.t)
  : homa_message_out.t :=
  homa_message_out.mk
    (homa_message_out.length m)
    (homa_message_out.packets m)
    (homa_message_out.next_packet m)
    (homa_message_out.unscheduled m)
    (if homa_message_out.granted m <? offset
     then Z.min offset (homa_message_out.length m)
     else homa_message_out.granted m)
    prio.

Definition advance (m : homa_message_out.t) : homa_message_out.t :=
  homa_message_out.mk
    (homa_message_out.length m)
    (homa_message_out.packets m)
    (S (homa_message_out.next_packet m))
    (homa_message_out.unscheduled m)
    (homa_message_out.granted m)
    (homa_message_out.sched_priority m).

(** Modelled from the spec: [homa_xmit_data] (section 4.2).  Transmission
    advances [next_packet] until there is no buffer left, the offset of
    [next_packet] is at or beyond [granted], or NIC occupancy blocks;
    [budget] is the number of buffers the occupancy check admits. *)
Fixpoint xmit_msgout (budget : nat) (m : homa_message_out.t)
  : homa_message_out.t :=
  match budget with
  | O => m
  | S budget' =>
      if (homa_message_out.next_packet m
            <? List.length (homa_message_out.packets m))%nat
         && (bytes_sent m <? homa_message_out.granted m)
      then xmit_msgout budget' (advance m)
      else m
  end.

(** Modelled from the spec: [homa_message_out_reset] (the RESTART rule of
    section 4.1): the descriptor is reset to offset 0. *)
Definition reset_msgout (m : homa_message_out.t) : homa_message_out.t :=
  homa_message_out.mk
    (homa_message_out.length m)
    (homa_message_out.packets m)
    0
    (homa_message_out.unscheduled m)
    (homa_message_out.granted m)
    (homa_message_out.sched_priority m).

Definition all_sent (m : homa_message_out.t) : bool :=
  (List.length (homa_message_out.packets m)
     <=? homa_message_out.next_packet m)%nat.

(** *** Incoming messages *)

Definition covered (segs : list (Z * Z)) (b : Z) : bool :=
  existsb (fun s => (fst s <=? b) && (b <? fst s + snd s)) segs.

(** Number of bytes of the span [off, off + len) that no received segment
    covers yet. *)
Definition newly_covered (segs : list (Z * Z)) (off len : Z) : Z :=
  Z.of_nat
    (List.length
       (filter (fun b => negb (covered segs b))
          (map (fun i => off + Z.of_nat i) (seq 0 (Z.to_nat len))))).

Fixpoint insert_segment (s : Z * Z) (segs : list (Z * Z)) : list (Z * Z) :=
  match segs with
  | [] => [s]
  | x :: rest =>
      if fst s <? fst x then s :: segs else x :: insert_segment s rest
  end.

(** Modelled from the spec: [homa_message_in_init] is only declared in
    [homa_impl.h]; the descriptor of section 3 for a message of [len] bytes
    of which the sender transmits [inc] without grants. *)
Definition homa_message_in_init (len inc : Z) : homa_message_in.t :=
  homa_message_in.mk len [] len inc 0 (inc <? len) false.

(** Modelled from the spec: [homa_add_packet] (section 4.3).  A segment
    whose range is already fully covered is dropped; otherwise it is
    inserted so that the list stays sorted by offset, the newly covered
    span is credited, and [incoming] becomes the maximum of its value, the
    packet's [incoming] and the end of the segment. *)
Definition homa_add_packet (m : homa_message_in.t) (inc off len : Z)
  : homa_message_in.t :=
  let fresh := newly_covered (homa_message_in.packets m) off len in
  if fresh =? 0 then m
  else
    homa_message_in.mk
      (homa_message_in.total_length m)
      (insert_segment (off, len) (homa_message_in.packets m))
      (homa_message_in.bytes_remaining m - fresh)
      (Z.max (homa_message_in.incoming m) (Z.max inc (off + len)))
      (homa_message_in.priority m)
      (homa_message_in.scheduled m)
      (homa_message_in.possibly_in_grant_queue m).

Definition complete (m : homa_message_in.t) : bool :=
  homa_message_in.bytes_remaining m <=? 0.

(** *** The RPC state machine *)

(** What can happen to an RPC: the packet types of section 4.1 addressed to
    it, the application's read and reply (section 4.8), a transmission
    opportunity (section 4.2), and aborts (sections 4.6 and 7). *)
Inductive event : Type :=
| E_data (message_length incoming offset seg_length : Z)
| E_grant (offset priority : Z)
| E_resend (offset len priority : Z)
| E_restart
| E_busy
| E_recv
| E_reply (len max_pkt unsched : Z)
| E_xmit (budget : nat)
| E_timeout
| E_peer_abort (err : Z).

Definition ETIMEDOUT : Z := 110.

(** Modelled from the spec: [homa_rpc_new_client] (send, section 6): a new
    client RPC starts in [RPC_OUTGOING] with its request constructed. *)
Definition homa_rpc_new_client (rpc_id port len max_pkt unsched : Z)
  : homa_rpc :=
  mkRpc port rpc_id RPC_OUTGOING true 0 homa_message_in.unused
    (homa_message_out_init len max_pkt unsched) 0 0.

(** Modelled from the spec: [homa_rpc_new_server] (section 4.1, DATA for an
    unknown RPC on a server socket): a fresh server RPC in [RPC_INCOMING]. *)
Definition homa_rpc_new_server (rpc_id port message_length inc : Z)
  : homa_rpc :=
  mkRpc port rpc_id RPC_INCOMING false 0
    (homa_message_in_init message_length inc) homa_message_out.unused 0 0.

(** Modelled from the spec: [homa_rpc_ready]: the RPC becomes [RPC_READY]. *)
Definition homa_rpc_ready (r : homa_rpc) : homa_rpc := set_state RPC_READY r.

(** Modelled from the spec: [homa_rpc_abort] (sections 5 and 7): the error
    field is set and the client RPC enters READY so that the next reader
    observes the failure. *)
Definition homa_rpc_abort (r : homa_rpc) (err : Z) : homa_rpc :=
  homa_rpc_ready (set_error err r).

Definition awaiting_peer (r : homa_rpc) : bool :=
  match state r with
  | RPC_OUTGOING | RPC_INCOMING => true
  | _ => false
  end.

(** Modelled from the spec: reassembly of one segment into an RPC in
    [RPC_INCOMING] (section 4.3); when the bytes received reach the total
    length the RPC becomes READY. *)
Definition merge_data (r : homa_rpc) (inc off len : Z) : homa_rpc :=
  let r' := set_msgin (homa_add_packet (msgin r) inc off len) r in
  if complete (msgin r') then homa_rpc_ready r' else r'.

(** Modelled from the spec: [homa_data_pkt] (section 4.1, DATA for a known
    RPC): merge into the reassembly structure; if the state was OUTGOING
    (the client case: first DATA of the response), transition to INCOMING. *)
Definition homa_data_pkt (r : homa_rpc) (message_length inc off len : Z)
  : homa_rpc :=
  match state r with
  | RPC_OUTGOING =>
      if is_client r then
        merge_data
          (set_state RPC_INCOMING
             (set_msgin (homa_message_in_init message_length inc) r))
          inc off len
      else r
  | RPC_INCOMING => merge_data r inc off len
  | _ => r
  end.

(** Modelled from the spec: [homa_grant_pkt] (section 4.1). *)
Definition homa_grant_pkt (r : homa_rpc) (offset prio : Z) : homa_rpc :=
  match state r with
  | RPC_OUTGOING => set_msgout (grant_msgout offset prio (msgout r)) r
  | _ => r
  end.

(** Modelled from the spec: [homa_restart_pkt] (section 4.1, client side
    only, and the comment of [struct restart_header]): the outgoing
    descriptor is reset to offset 0, any partial response is discarded and
    the RPC re-enters OUTGOING.  The rule has no condition on the state of
    the client RPC. *)
Definition homa_restart_pkt (r : homa_rpc) : homa_rpc :=
  if is_client r then
    set_state RPC_OUTGOING
      (set_msgin homa_message_in.unused
         (set_msgout (reset_msgout (msgout r)) r))
  else r.

(** Modelled from the spec: [homa_xmit_data] on an RPC.  A server RPC whose
    response has been transmitted entirely is destroyed (the server
    discards its RPC state: comment of [struct restart_header]). *)
Definition homa_xmit_data (r : homa_rpc) (budget : nat) : option homa_rpc :=
  match state r with
  | RPC_OUTGOING =>
      let r' := set_msgout (xmit_msgout budget (msgout r)) r in
      if negb (is_client r') && all_sent (msgout r') then None else Some r'
  | _ => Some r
  end.

(** Modelled from the spec: the application's read (section 4.8): a READY
    RPC becomes IN_SERVICE on a server and CLIENT_DONE on a client. *)
Definition app_recv (r : homa_rpc) : homa_rpc :=
  match state r with
  | RPC_READY =>
      set_state (if is_client r then RPC_CLIENT_DONE else RPC_IN_SERVICE) r
  | _ => r
  end.

(** Modelled from the spec: the application's reply (sections 3 and 6): a
    server RPC in IN_SERVICE gets its response constructed and becomes
    OUTGOING. *)
Definition app_reply (r : homa_rpc) (len max_pkt unsched : Z) : homa_rpc :=
  match state r with
  | RPC_IN_SERVICE =>
      if is_client r then r
      else set_state RPC_OUTGOING
             (set_msgout (homa_message_out_init len max_pkt unsched) r)
  | _ => r
  end.

(** Modelled from the spec: an abort of an RPC that is still waiting for
    its peer (sections 4.6 and 7): the client RPC enters READY with the
    error, the server RPC is destroyed. *)
Definition abort (r : homa_rpc) (err : Z) : option homa_rpc :=
  if awaiting_peer r then
    if is_client r then Some (homa_rpc_abort r err) else None
  else Some r.

(** Modelled from the spec: dispatch (section 4.1) and the other entry
    points, one event applied to an RPC; [None] means the RPC was
    destroyed.  A packet from the peer resets the silent-tick and resend
    counters (sections 3 and 4.6). *)
Definition step (r : homa_rpc) (e : event) : option homa_rpc :=
  match e with
  | E_data message_length inc off len =>
      Some (homa_data_pkt (heard_from_peer r) message_length inc off len)
  | E_grant offset prio => Some (homa_grant_pkt (heard_from_peer r) offset prio)
  | E_resend _ _ _ => Some (heard_from_peer r)
  | E_restart => Some (homa_restart_pkt (heard_from_peer r))
  | E_busy => Some (heard_from_peer r)
  | E_recv => Some (app_recv r)
  | E_reply len max_pkt unsched => Some (app_reply r len max_pkt unsched)
  | E_xmit budget => homa_xmit_data r budget
  | E_timeout => abort r (- ETIMEDOUT)
  | E_peer_abort err => if is_client r then abort r err else Some r
  end.

Fixpoint run (r : homa_rpc) (es : list event) : option homa_rpc :=
  match es with
  | [] => Some r
  | e :: rest =>
      match step r e with
      | Some r' => run r' rest
      | None => None
      end
  end.

(** Sizes handed to message construction are sizes. *)
Definition event_ok (e : event) : Prop :=
  match e with
  | E_reply len max_pkt unsched => 0 <= len /\ 0 < max_pkt /\ 0 <= unsched
  | _ => True
  end.

(** The bounds that the description states for an outgoing message. *)
Definition stated_bounds (m : homa_message_out.t) : Prop :=
  0 <= bytes_sent m /\
  bytes_sent m <= homa_message_out.granted m /\
  homa_message_out.granted m <= homa_message_out.length m /\
  ((0 < homa_message_out.next_packet m)%nat ->
   homa_message_out.unscheduled m <= homa_message_out.granted m).

(** The bounds that hold of it. *)
Definition actual_bounds (m : homa_message_out.t) : Prop :=
  0 <= bytes_sent m <= homa_message_out.length m /\
  0 <= homa_message_out.granted m <= homa_message_out.length m /\
  Z.min (homa_message_out.unscheduled m) (homa_message_out.length m)
    <= homa_message_out.granted m /\
  (homa_message_out.next_packet m = 0%nat \/
   packet_offset m (homa_message_out.next_packet m - 1)
     < homa_message_out.granted m).

(** The invariant behind [actual_bounds]. *)
Definition out_inv (m : homa_message_out.t) : Prop :=
  Forall (fun p => 0 < p) (homa_message_out.packets m) /\
  sum (homa_message_out.packets m) = homa_message_out.length m /\
  (homa_message_out.next_packet m
     <= List.length (homa_message_out.packets m))%nat /\
  0 <= homa_message_out.granted m <= homa_message_out.length m /\
  Z.min (homa_message_out.unscheduled m) (homa_message_out.length m)
    <= homa_message_out.granted m /\
  (homa_message_out.next_packet m = 0%nat \/
   packet_offset m (homa_message_out.next_packet m - 1)
     < homa_message_out.granted m).

Definition rpc_inv (r : homa_rpc) : Prop :=
  out_inv (msgout r) \/ (is_client r = false /\ state r <> RPC_OUTGOING).

(** How an RPC comes into being. *)
Inductive created : homa_rpc -> Prop :=
| created_client (rpc_id port len max_pkt unsched : Z) :
    0 <= len -> 0 < max_pkt -> 0 <= unsched ->
    created (homa_rpc_new_client rpc_id port len max_pkt unsched)
| created_server (rpc_id port message_length inc : Z) :
    created (homa_rpc_new_server rpc_id port message_length inc).





(** Seed scenario 2 of the description: a 500000-byte message in packets of
    1400 bytes, 30000 RTT bytes rounded up to 22 full packets, first GRANT
    at offset 40000. *)
Definition scenario_large : homa_rpc :=
  homa_rpc_new_client 1 99 500000 1400 30800.

Definition scenario_large_events : list event :=
  [E_xmit 1000; E_grant 40000 0; E_xmit 1000].

(** Seed scenario 1: a 500-byte message with 10000 unscheduled bytes. *)
Definition scenario_small : homa_rpc :=
  homa_rpc_new_client 2 99 500 1400 10000.

Definition scenario_small_events : list event := [E_xmit 10].


End Rpc.

(** ** The grant queue *)

Module Grant.

(** The part of the machine the grant queue involves.  RPCs are named by
    handles (one per [struct homa_rpc]); [msgin h] is the [msgin] member of
    the RPC [h].  [grantable_rpcs] and [num_grantable] are the members of
    [struct homa] that [grantable_lock] guards: the list links the RPCs
    themselves through their [grantable_links], so it is a list of
    handles, and the key of an entry is whatever its
    [msgin.bytes_remaining] holds at the moment. *)
Record grant_state : Type := mkState {
  msgin : Z -> homa_message_in.t;
  grantable_rpcs : list Z;
  num_grantable : Z
}.

(** The key the list is ordered by: the [msgin.bytes_remaining] of the
    RPC, read from the RPC itself. *)
Definition key (s : grant_state) (h : Z) : Z :=
  homa_message_in.bytes_remaining (msgin s h).

(** [!list_empty(&rpc->grantable_links)] *)
Definition linked (h : Z) (l : list Z) : bool := existsb (Z.eqb h) l.

Definition unlink (h : Z) (l : list Z) : list Z :=
  filter (fun x => negb (x =? h)) l.

(** Link [h] in front of the first entry with more bytes remaining. *)
Fixpoint insert_in_order (k : Z -> Z) (h : Z) (l : list Z) : list Z :=
  match l with
  | [] => [h]
  | x :: rest =>
      if k h <? k x then h :: l else x :: insert_in_order k h rest
  end.

Definition update (f : Z -> homa_message_in.t) (h : Z)
  (m : homa_message_in.t) : Z -> homa_message_in.t :=
  fun x => if x =? h then m else f x.

Definition set_possibly_in_grant_queue (b : bool) (m : homa_message_in.t)
  : homa_message_in.t :=
  homa_message_in.mk
    (homa_message_in.total_length m)
    (homa_message_in.packets m)
    (homa_message_in.bytes_remaining m)
    (homa_message_in.incoming m)
    (homa_message_in.priority m)
    (homa_message_in.scheduled m)
    b.

(** The message cannot complete without further grants. *)
Definition needs_grants (m : homa_message_in.t) : bool :=
  homa_message_in.incoming m <? homa_message_in.total_length m.

(** [homa_add_packet(msgin, skb)] on the RPC [h].  The function is handed
    the [homa_message_in] alone: it changes [bytes_remaining] there and
    leaves [grantable_rpcs] and [num_grantable] as they are. *)
Definition homa_add_packet (s : grant_state) (h inc off len : Z)
  : grant_state :=
  mkState
    (update (msgin s) h (Rpc.homa_add_packet (msgin s h) inc off len))
    (grantable_rpcs s)
    (num_grantable s).

(** Modelled from the spec: [homa_remove_from_grantable] is only declared
    in [homa_impl.h].  Sections 3 and 4.3: the RPC is unlinked if it is
    linked, and removal is idempotent; by the comment of
    [possibly_in_grant_queue] nothing is looked at when that flag is
    clear. *)
Definition homa_remove_from_grantable (s : grant_state) (h : Z)
  : grant_state :=
  if homa_message_in.possibly_in_grant_queue (msgin s h) then
    mkState
      (update (msgin s) h (set_possibly_in_grant_queue false (msgin s h)))
      (unlink h (grantable_rpcs s))
      (if linked h (grantable_rpcs s) then num_grantable s - 1
       else num_grantable s)
  else s.

(** Modelled from the spec: [homa_manage_grants] is only declared in
    [homa_impl.h].  Sections 3 and 4.4: an RPC is on the queue only while
    its [incoming] is below its [total_length]; the queue is kept in
    ascending order of [bytes_remaining] and re-sorted when the
    [bytes_remaining] of an RPC has changed: the RPC is taken out of the
    list, if it is there, and linked in front of the first entry with more
    bytes remaining, so behind the entries with as many. *)
Definition homa_manage_grants (s : grant_state) (h : Z) : grant_state :=
  if needs_grants (msgin s h) then
    mkState
      (update (msgin s) h (set_possibly_in_grant_queue true (msgin s h)))
      (insert_in_order (key s) h (unlink h (grantable_rpcs s)))
      (if linked h (grantable_rpcs s) then num_grantable s
       else num_grantable s + 1)
  else homa_remove_from_grantable s h.

(** The operations that touch the queue or its keys, each one call. *)
Inductive op : Type :=
| Op_add_packet (h inc off len : Z)
| Op_manage (h : Z)
| Op_remove (h : Z).

Definition apply_op (s : grant_state) (o : op) : grant_state :=
  match o with
  | Op_add_packet h inc off len => homa_add_packet s h inc off len
  | Op_manage h => homa_manage_grants s h
  | Op_remove h => homa_remove_from_grantable s h
  end.

(** What an observer of the calls records; no operation reads it.
    [clock] counts the calls.  [pending h]: [homa_add_packet] has been
    called on [h] since [homa_manage_grants] last positioned it.
    [placed h]: the time of the last [homa_manage_grants] on [h].
    [inserted h]: the time [h] was last linked into the list while it was
    not on it. *)
Record observer : Type := mkObserver {
  clock : nat;
  pending : Z -> bool;
  placed : Z -> nat;
  inserted : Z -> nat
}.

Definition record_bool (f : Z -> bool) (h : Z) (b : bool) : Z -> bool :=
  fun x => if x =? h then b else f x.

Definition record_time (f : Z -> nat) (h : Z) (t : nat) : Z -> nat :=
  fun x => if x =? h then t else f x.

(** The observer's record after the call [o] made in state [s]. *)
Definition observe (s : grant_state) (ob : observer) (o : op) : observer :=
  let t := S (clock ob) in
  match o with
  | Op_add_packet h _ _ _ =>
      mkObserver t (record_bool (pending ob) h true) (placed ob)
        (inserted ob)
  | Op_manage h =>
      mkObserver t (record_bool (pending ob) h false)
        (record_time (placed ob) h t)
        (if needs_grants (msgin s h) && negb (linked h (grantable_rpcs s))
         then record_time (inserted ob) h t
         else inserted ob)
  | Op_remove h =>
      mkObserver t (pending ob) (placed ob) (inserted ob)
  end.

Definition observed_step (c : grant_state * observer) (o : op)
  : grant_state * observer :=
  (apply_op (fst c) o, observe (fst c) (snd c) o).

(** A history: the RPCs as they were created, an empty queue, and the
    calls made since. *)
Definition start (rpcs : Z -> homa_message_in.t)
  : grant_state * observer :=
  (mkState rpcs [] 0,
   mkObserver 0 (fun _ => false) (fun _ => 0%nat) (fun _ => 0%nat)).

Definition run_observed (rpcs : Z -> homa_message_in.t) (ops : list op)
  : grant_state * observer :=
  fold_left observed_step ops (start rpcs).

Definition run (rpcs : Z -> homa_message_in.t) (ops : list op)
  : grant_state := fst (run_observed rpcs ops).



















End Grant.

(** ** Priorities of unscheduled packets *)

Module Cutoffs.

(** Values of the C type [int], the element type of
    [homa.unsched_cutoffs] and [homa_peer.unsched_cutoffs]. *)
Definition is_int (x : Z) : Prop := INT_MIN <= x <= INT_MAX.

(** The requirement stated in the comment of [homa.unsched_cutoffs]: at
    least one entry of the array has a value of [HOMA_MAX_MESSAGE_SIZE] or
    greater. *)
Definition cutoffs_invariant (c : list Z) : Prop :=
  Exists (fun x => HOMA_MAX_MESSAGE_SIZE <= x) c.

Definition cutoffs_invariantb (c : list Z) : bool :=
  existsb (fun x => HOMA_MAX_MESSAGE_SIZE <=? x) c.

(** The highest level below [i] whose cutoff admits a message of [len]
    bytes. *)
Fixpoint highest_level (i : nat) (c : list Z) (len : Z) : option nat :=
  match i with
  | O => None
  | S j => if len <=? nth j c 0 then Some j else highest_level j c len
  end.

(** Modelled from the spec: [homa_unsched_priority] is only declared in
    [homa_impl.h].  The comment of [homa.unsched_cutoffs]: entry i is the
    largest message size that uses priority i, larger i is higher priority,
    and once an entry admits every message no lower level is used; so the
    level of a message is the highest one whose cutoff is at least its
    length.  [None] stands for a search that leaves the array. *)
Definition homa_unsched_priority (c : list Z) (len : Z) : option nat :=
  highest_level HOMA_NUM_PRIORITIES c len.

(** The [__be32] value that carries an [int] in a CUTOFFS packet. *)
Definition to_u32 (x : Z) : Z := x mod 2 ^ 32.

(** The values of the [unsched_cutoffs] members of a CUTOFFS packet sent by
    a host whose array is [c]. *)
Definition cutoffs_packet (c : list Z) : list Z := map to_u32 c.

(** Modelled from the spec: [homa_cutoffs_pkt] (section 4.1, CUTOFFS): the
    peer's cutoffs are replaced by the packet's values. *)
Definition homa_cutoffs_pkt (packet : list Z) : list Z :=
  map Codec.to_int packet.

(** Cutoffs with a catch-all level 0, as the comment of the array calls
    usual. *)
Definition sample_cutoffs : list Z :=
  [INT_MAX; 200000; 50000; 10000; 2000; 500; 100; 0].


End Cutoffs.

(** ** Hash tables for sockets and RPCs *)

Module Tables.

Definition HOMA_SOCKTAB_BUCKETS : Z := 1024.
Definition HOMA_CLIENT_RPC_BUCKETS : Z := 1024.
Definition HOMA_SERVER_RPC_BUCKETS : Z := 1024.
Definition HOMA_PEERTAB_BUCKET_BITS : Z := 20.
Definition HOMA_PEERTAB_BUCKETS : Z := Z.shiftl 1 HOMA_PEERTAB_BUCKET_BITS.

(** [homa_port_hash]: [port & (HOMA_SOCKTAB_BUCKETS - 1)]. *)
Definition homa_port_hash (port : Z) : Z :=
  Z.land port (HOMA_SOCKTAB_BUCKETS - 1).

(** [homa_client_rpc_bucket]: the index of the entry of
    [hsk->client_rpc_buckets] whose address is returned,
    [id & (HOMA_CLIENT_RPC_BUCKETS - 1)]. *)
Definition homa_client_rpc_bucket (id : Z) : Z :=
  Z.land id (HOMA_CLIENT_RPC_BUCKETS - 1).

(** [homa_server_rpc_bucket]: the index of the entry of
    [hsk->server_rpc_buckets] whose address is returned,
    [id & (HOMA_SERVER_RPC_BUCKETS - 1)]. *)
Definition homa_server_rpc_bucket (id : Z) : Z :=
  Z.land id (HOMA_SERVER_RPC_BUCKETS - 1).

End Tables.

(** ** TCP segmentation offload and the [doff] byte *)

Module Offload.

(** The right-hand side of the assignment in [homa_set_doff] for a DATA
    prefix of [n] bytes, [n << 2] stored into a [__u8]. *)
Definition doff_of_prefix (n : Z) : Z := Z.shiftl n 2 mod 256.

(** The length in bytes that a TCP data-offset byte announces: its
    high-order four bits count 4-byte words (RFC 793). *)
Definition tcp_header_bytes (doff : Z) : Z := Z.shiftr doff 4 * 4.

(** The two [_Static_assert] conditions on [struct data_header], for a
    header of [size] bytes that ends with a [data_segment] of [seg]
    bytes. *)
Definition asserts_hold (size seg : Z) : bool :=
  (size <=? HOMA_MAX_HEADER) && (Z.land (size - seg) 3 =? 0).

(** The transport header of a DATA packet whose first segment starts at
    offset 70000 (bytes 40-43), all other bytes zero. *)
Definition sample_data_packet : list Z :=
  repeat 0 40 ++ [0; 1; 17; 112] ++ repeat 0 20.

End Offload.

(** ** Per-core metrics *)

Module Metrics.

Definition HOMA_NUM_SMALL_COUNTS : nat := 64.
Definition HOMA_NUM_MEDIUM_COUNTS : nat := 64.

(** The length [BOGUS-DATA] of the arrays [packets_sent] and
    [packets_received]. *)
Definition NUM_PACKET_COUNTS : Z :=
  Wire.opcode Wire.BOGUS - Wire.opcode Wire.DATA.

(** The counters of [struct homa_metrics]: one constructor per member, with
    an index for the members that are arrays. *)
Inductive metric : Type :=
| small_msg_bytes (i : nat)
| medium_msg_bytes (i : nat)
| large_msg_bytes
| packets_sent (i : nat)
| packets_received (i : nat)
| requests_received
| responses_received
| pkt_recv_calls
| timer_cycles
| pacer_cycles
| pacer_lost_cycles
| resent_packets
| peer_hash_links
| peer_new_entries
| peer_kmalloc_errors
| peer_route_errors
| control_xmit_errors
| data_xmit_errors
| unknown_rpcs
| server_cant_create_rpcs
| unknown_packet_types
| short_packets
| client_rpc_timeouts
| server_rpc_timeouts
| temp1
| temp2
| temp3
| temp4.

Definition metric_eq_dec (a b : metric) : {a = b} + {a <> b}.
Proof. decide equality; apply Nat.eq_dec. Defined.

(** A [struct homa_metrics]: the value of each of its [__u64] counters. *)
Definition homa_metrics : Type := metric -> Z.

(** [+=] on a [__u64]. *)
Definition add_u64 (a b : Z) : Z := (a + b) mod 2 ^ 64.

Definition bump (r : homa_metrics) (m : metric) (count : Z) : homa_metrics :=
  fun m' => if metric_eq_dec m' m then add_u64 (r m') count else r m'.

Fixpoint set_nth {A : Type} (i : nat) (x : A) (l : list A) : list A :=
  match l, i with
  | [], _ => []
  | _ :: rest, O => x :: rest
  | y :: rest, S i' => y :: set_nth i' x rest
  end.

(** [INC_METRIC(metric, count)] executed on the core [cpu] (the value of
    [smp_processor_id()]): [(homa_metrics[cpu]->metric) += (count)], on the
    array of per-core records.  [cpu] is below [NR_CPUS], the length of
    the array; the model leaves the array alone otherwise. *)
Definition INC_METRIC (cpu : nat) (m : metric) (count : Z)
  (all : list homa_metrics) : list homa_metrics :=
  match nth_error all cpu with
  | Some r => set_nth cpu (bump r m count) all
  | None => all
  end.

(** The value of counter [m] in the record of core [cpu]. *)
Definition counter (all : list homa_metrics) (cpu : nat) (m : metric) : Z :=
  match nth_error all cpu with
  | Some r => r m
  | None => 0
  end.

(** The sum of counter [m] over all cores. *)
Fixpoint total (all : list homa_metrics) (m : metric) : Z :=
  match all with
  | [] => 0
  | r :: rest => r m + total rest m
  end.

(** A series of [INC_METRIC]s, each with the core that executes it. *)
Fixpoint run_incs (incs : list (nat * metric * Z)) (all : list homa_metrics)
  : list homa_metrics :=
  match incs with
  | [] => all
  | (cpu, m, count) :: rest => run_incs rest (INC_METRIC cpu m count all)
  end.

(** The sum of the counts added to counter [m] by a series. *)
Fixpoint added (incs : list (nat * metric * Z)) (m : metric) : Z :=
  match incs with
  | [] => 0
  | (_, m', count) :: rest =>
      (if metric_eq_dec m' m then count else 0) + added rest m
  end.

(** Records with every counter at zero, and a series of increments on two
    cores, the last of which wraps the total around. *)
Definition zero_metrics : homa_metrics := fun _ => 0.

Definition sample_incs : list (nat * metric * Z) :=
  [ (0%nat, pacer_cycles, 7); (1%nat, pacer_cycles, 5);
    (0%nat, timer_cycles, 3); (1%nat, pacer_cycles, 2 ^ 64 - 1) ].

End Metrics.

(** * Properties *)

(** ** Layout of the headers *)

Module WireFacts.
Import Wire.

(** *** Layout facts *)

Lemma sizeof_common_header : sizeof common_header = 28.
Proof. reflexivity. Qed.

Lemma sizeof_data_segment : sizeof data_segment = 8.
Proof. reflexivity. Qed.

Lemma sizeof_data_header : sizeof data_header = 48.
Proof. reflexivity. Qed.

Lemma sizeof_cutoffs_header :
  sizeof cutoffs_header = 28 + 8 * 4 + 2 /\ sizeof cutoffs_header = 62.
Proof. split; reflexivity. Qed.

(** C5: [struct common_header] is 28 bytes long; [sport] lies in bytes 0-1,
    [dport] in bytes 2-3 and [doff] in byte 12, which are the bytes the
    source port, the destination port and the data offset occupy in a TCP
    header. *)
Theorem common_header_matches_tcp :
  sizeof common_header = 28 /\
  member_bytes common_header ["sport"%string] = Some (0, 1) /\
  member_bytes common_header ["dport"%string] = Some (2, 3) /\
  member_bytes common_header ["doff"%string] = Some (12, 12) /\
  member_bytes common_header ["sport"%string]
    = member_bytes tcphdr ["source"%string] /\
  member_bytes common_header ["dport"%string]
    = member_bytes tcphdr ["dest"%string] /\
  member_bytes common_header ["doff"%string]
    = member_bytes tcphdr ["doff"%string].
Proof. repeat split; reflexivity. Qed.

(** The remaining TCP-compatibility notes of the struct's comments:
    [unused1] covers the sequence number and [checksum] the TCP checksum. *)
Lemma common_header_tcp_other_fields :
  member_bytes common_header ["unused1"%string]
    = member_bytes tcphdr ["seq"%string] /\
  member_bytes common_header ["checksum"%string]
    = member_bytes tcphdr ["check"%string].
Proof. split; reflexivity. Qed.

Lemma header_sizes :
  map sizeof packet_headers = [48; 33; 37; 28; 28; 62; 28].
Proof. reflexivity. Qed.

(** C6: each of the seven packet header structs is at most
    [HOMA_MAX_HEADER] = 64 bytes long, so every [_Static_assert] on a header
    size holds; [cutoffs_header] is the largest, 28 + 8 * 4 + 2 = 62 bytes. *)
Theorem headers_fit_max_header :
  HOMA_MAX_HEADER = 64 /\
  map header_of [DATA; GRANT; RESEND; RESTART; BUSY; CUTOFFS; FREEZE]
    = map Some packet_headers /\
  Forall (fun h => sizeof h <= HOMA_MAX_HEADER) packet_headers /\
  forallb static_assert_fits packet_headers = true /\
  Forall (fun h => sizeof h <= sizeof cutoffs_header) packet_headers /\
  sizeof cutoffs_header = 28 + 8 * 4 + 2 /\
  sizeof cutoffs_header = 62.
Proof.
  split; [reflexivity|].
  split; [reflexivity|].
  split.
  { unfold packet_headers. repeat constructor; vm_compute; discriminate. }
  split; [reflexivity|].
  split.
  { unfold packet_headers. repeat constructor; vm_compute; discriminate. }
  split; reflexivity.
Qed.

(** The value that [homa_set_doff] assigns: the fixed prefix of a DATA
    packet is 40 bytes, a multiple of 4, and 40 << 2 = 160 has 10 = 40 / 4
    in its high-order four bits and zero in its low-order four. *)
Theorem data_prefix_doff :
  sizeof data_header - sizeof data_segment = 40 /\
  40 mod 4 = 0 /\
  static_assert_prefix_aligned = true /\
  homa_set_doff_value = Z.shiftl 40 2 /\
  homa_set_doff_value = 160 /\
  Z.shiftr homa_set_doff_value 4 = 10 /\
  Z.shiftr homa_set_doff_value 4
    = (sizeof data_header - sizeof data_segment) / 4 /\
  Z.land homa_set_doff_value 15 = 0.
Proof. repeat split; reflexivity. Qed.

End WireFacts.

(** ** Byte order *)

Module CodecFacts.
Import Wire Codec.

(** *** Bytes and values *)

Lemma le_bytes_length (w : nat) : forall v, length (le_bytes w v) = w.
Proof. induction w as [|w IH]; intros v; simpl; [reflexivity | now rewrite IH]. Qed.

Lemma le_bytes_are_bytes (w : nat) : forall v, Forall is_byte (le_bytes w v).
Proof.
  induction w as [|w IH]; intros v; simpl; constructor.
  - unfold is_byte. apply Z.mod_pos_bound. lia.
  - apply IH.
Qed.

Lemma be_bytes_length (w : nat) (v : Z) : length (be_bytes w v) = w.
Proof. unfold be_bytes. rewrite length_rev. apply le_bytes_length. Qed.

Lemma be_bytes_are_bytes (w : nat) (v : Z) : Forall is_byte (be_bytes w v).
Proof. unfold be_bytes. apply Forall_rev, le_bytes_are_bytes. Qed.

Lemma le_value_le_bytes (w : nat) :
  forall v, 0 <= v < 256 ^ Z.of_nat w -> le_value (le_bytes w v) = v.
Proof.
  induction w as [|w IH]; intros v Hv.
  - simpl in *. lia.
  - rewrite Nat2Z.inj_succ, Z.pow_succ_r in Hv by lia.
    cbn [le_bytes le_value]. rewrite IH.
    + pose proof (Z.div_mod v 256 ltac:(lia)). lia.
    + split.
      * apply Z.div_pos; lia.
      * apply Z.div_lt_upper_bound; lia.
Qed.

Lemma le_bytes_le_value (bs : list Z) :
  Forall is_byte bs -> le_bytes (length bs) (le_value bs) = bs.
Proof.
  induction 1 as [|b bs Hb _ IH]; cbn [length le_bytes le_value];
    [reflexivity|].
  unfold is_byte in Hb.
  replace (b + 256 * le_value bs) with (b + le_value bs * 256) by lia.
  rewrite Z_mod_plus_full, Z.div_add by lia.
  rewrite Z.mod_small, Z.div_small by lia.
  rewrite Z.add_0_l. now rewrite IH.
Qed.

Lemma store_length (host : endian) (w : nat) (v : Z) :
  length (store host w v) = w.
Proof. destruct host; simpl; [apply le_bytes_length | apply be_bytes_length]. Qed.

Lemma store_are_bytes (host : endian) (w : nat) (v : Z) :
  Forall is_byte (store host w v).
Proof.
  destruct host; simpl; [apply le_bytes_are_bytes | apply be_bytes_are_bytes].
Qed.

(** A converted store leaves the value in network order in memory, on either
    kind of host. *)
Lemma store_cpu_to_be (host : endian) (w : nat) (v : Z) :
  store host w (cpu_to_be host w v) = be_bytes w v.
Proof.
  destruct host; simpl; [|reflexivity].
  unfold swab.
  rewrite <- (be_bytes_length w v) at 1.
  apply le_bytes_le_value, be_bytes_are_bytes.
Qed.

Lemma load_store (host : endian) (w : nat) (v : Z) :
  0 <= v < 256 ^ Z.of_nat w -> load host (store host w v) = v.
Proof.
  intros Hv. destruct host; simpl.
  - now apply le_value_le_bytes.
  - unfold be_value, be_bytes. rewrite rev_involutive.
    now apply le_value_le_bytes.
Qed.

Lemma store_load (host : endian) (bs : list Z) :
  Forall is_byte bs -> store host (length bs) (load host bs) = bs.
Proof.
  intros Hb. destruct host; simpl.
  - now apply le_bytes_le_value.
  - unfold be_bytes, be_value.
    rewrite <- (length_rev bs), le_bytes_le_value by now apply Forall_rev.
    apply rev_involutive.
Qed.

(** A converted load reads the bytes as a big-endian number, on either kind
    of host. *)
Lemma be_to_cpu_load (host : endian) (bs : list Z) :
  Forall is_byte bs ->
  be_to_cpu host (length bs) (load host bs) = be_value bs.
Proof.
  intros Hb. destruct host; simpl; [|reflexivity].
  unfold swab, be_bytes. rewrite le_bytes_le_value by assumption.
  reflexivity.
Qed.

Lemma be_value_be_bytes (w : nat) (v : Z) :
  0 <= v < 256 ^ Z.of_nat w -> be_value (be_bytes w v) = v.
Proof.
  intros Hv. unfold be_value, be_bytes. rewrite rev_involutive.
  now apply le_value_le_bytes.
Qed.

Lemma store_narrow (h1 h2 : endian) (w : nat) (v : Z) :
  (w <= 1)%nat -> store h1 w v = store h2 w v.
Proof.
  intros Hw. destruct w as [|[|w]]; [| |lia]; destruct h1, h2; reflexivity.
Qed.

Lemma Forall_firstn {A : Type} (P : A -> Prop) (n : nat) :
  forall l, Forall P l -> Forall P (firstn n l).
Proof.
  induction n as [|n IH]; intros l Hl; [constructor|].
  destruct Hl as [|x l Hx Hl]; simpl; constructor; auto.
Qed.

Lemma Forall_skipn {A : Type} (P : A -> Prop) (n : nat) :
  forall l, Forall P l -> Forall P (skipn n l).
Proof.
  induction n as [|n IH]; intros l Hl; [exact Hl|].
  destruct Hl as [|x l Hx Hl]; simpl; auto.
Qed.

(** [homa_peer.cutoff_version] is kept in network byte order (its comment
    says so): copying such a value into a header without conversion puts
    the same bytes on the wire as converting the host-order value there. *)
Lemma network_order_copy (host : endian) (v : Z) :
  store host 2 (htons host v) = be_bytes 2 v.
Proof. apply store_cpu_to_be. Qed.

(** *** The source's one decoding helper *)

(** [homa_data_offset] returns the four bytes of [seg.offset] (offsets
    40-43 of the packet) read as a big-endian number, whatever the byte
    order of the machine. *)
Lemma homa_data_offset_big_endian (host : endian) (pkt : list Z) :
  Forall is_byte pkt ->
  (44 <= length pkt)%nat ->
  homa_data_offset host pkt = to_int (be_value (bytes_at pkt 40 4)).
Proof.
  intros Hb Hlen. unfold homa_data_offset, ntohl.
  change (offset_or_zero (offsetof data_header ["seg"; "offset"]%string))
    with 40.
  assert (Hl : length (bytes_at pkt 40 4) = 4%nat).
  { unfold bytes_at. rewrite length_firstn, length_skipn.
    change (Z.to_nat 40) with 40%nat. lia. }
  rewrite <- Hl at 1.
  rewrite be_to_cpu_load; [reflexivity|].
  unfold bytes_at. now apply Forall_firstn, Forall_skipn.
Qed.

Lemma homa_set_doff_byte (h : list Z) :
  (12 < length h)%nat ->
  nth 12 (homa_set_doff h) 0 = 160 /\
  length (homa_set_doff h) = length h /\
  (forall i, i <> 12%nat -> nth i (homa_set_doff h) 0 = nth i h 0).
Proof.
  intros Hlen.
  assert (Hdef : homa_set_doff h = firstn 12 h ++ 160 :: skipn 13 h)
    by reflexivity.
  rewrite Hdef.
  assert (Hf : length (firstn 12 h) = 12%nat)
    by (rewrite length_firstn; lia).
  split; [|split].
  - rewrite app_nth2; rewrite Hf; [reflexivity | lia].
  - rewrite length_app. cbn [length]. rewrite Hf, length_skipn. lia.
  - intros i Hi.
    destruct (Nat.lt_ge_cases i 12) as [Hlt|Hge].
    + rewrite app_nth1 by lia. rewrite nth_firstn.
      destruct (i <? 12)%nat eqn:E; [reflexivity|].
      apply Nat.ltb_ge in E. lia.
    + rewrite app_nth2; rewrite Hf; [|lia].
      destruct (i - 12)%nat as [|k] eqn:E; [lia|].
      cbn [nth]. rewrite nth_skipn. f_equal. lia.
Qed.

(** *** Members *)

Lemma put_field_length (host : endian) (l : leaf) (v : Z) :
  length (put_field host l v) = width l.
Proof. unfold put_field. destruct (conversion_of l); apply store_length. Qed.

Lemma put_field_are_bytes (host : endian) (l : leaf) (v : Z) :
  Forall is_byte (put_field host l v).
Proof. unfold put_field. destruct (conversion_of l); apply store_are_bytes. Qed.

Lemma narrow_width (l : leaf) : multi_byte l = false -> (width l <= 1)%nat.
Proof. unfold multi_byte. intros H. apply Nat.ltb_ge in H. exact H. Qed.

(** For a member that is one byte wide or declared with a [__be] type, the
    declared conversion puts on the wire what the description says. *)
Lemma put_field_wire (host : endian) (l : leaf) (v : Z) :
  wide_is_be l = true ->
  put_field host l v = wire_image host l v.
Proof.
  unfold wide_is_be, put_field, wire_image, conversion_of.
  intros Hw.
  destruct (is_id l) eqn:Hi; [reflexivity|].
  destruct (declared_order (leaf_type l)) eqn:Hd.
  - apply store_cpu_to_be.
  - rewrite orb_false_r in Hw. apply negb_true_iff in Hw.
    apply (store_narrow host BigEndian), narrow_width, Hw.
Qed.

Lemma get_put_field (sender receiver : endian) (l : leaf) (v : Z) :
  wide_is_be l = true ->
  in_range l v ->
  get_field receiver l (put_field sender l v) = received sender receiver l v.
Proof.
  unfold wide_is_be, in_range, put_field, get_field, received, conversion_of.
  intros Hw Hv.
  destruct (is_id l) eqn:Hi; [reflexivity|].
  destruct (declared_order (leaf_type l)) eqn:Hd.
  - rewrite store_cpu_to_be.
    rewrite <- (be_bytes_length (width l) v) at 1.
    rewrite be_to_cpu_load by apply be_bytes_are_bytes.
    now apply be_value_be_bytes.
  - rewrite orb_false_r in Hw. apply negb_true_iff in Hw.
    rewrite (store_narrow sender receiver) by (apply narrow_width, Hw).
    now apply load_store.
Qed.

Lemma received_same_host (host : endian) (l : leaf) (v : Z) :
  in_range l v -> received host host l v = v.
Proof.
  unfold received, in_range. intros Hv.
  destruct (is_id l); [now apply load_store | reflexivity].
Qed.

(** Writing back what was read reproduces the sender's bytes. *)
Lemma put_received (sender receiver : endian) (l : leaf) (v : Z) :
  wide_is_be l = true ->
  put_field receiver l (received sender receiver l v) = put_field sender l v.
Proof.
  intros Hw. rewrite !put_field_wire by assumption.
  unfold wire_image, received.
  destruct (is_id l); [|reflexivity].
  rewrite <- (store_length sender (width l) v) at 1.
  apply store_load, store_are_bytes.
Qed.

(** *** Whole headers *)

Lemma encode_wire (host : endian) (ls : list leaf) :
  forallb wide_is_be ls = true ->
  forall vs, encode host ls vs = concat (zip_with (wire_image host) ls vs).
Proof.
  induction ls as [|l ls IH]; intros Hw [|v vs]; simpl; try reflexivity.
  simpl in Hw. apply andb_true_iff in Hw. destruct Hw as [Hl Hls].
  now rewrite put_field_wire, IH.
Qed.

Lemma decode_encode (sender receiver : endian) (ls : list leaf) (vs : list Z) :
  forallb wide_is_be ls = true ->
  Forall2 in_range ls vs ->
  decode receiver ls (encode sender ls vs)
    = zip_with (received sender receiver) ls vs.
Proof.
  intros Hw Hr. induction Hr as [|l v ls vs Hv _ IH];
    cbn [decode encode zip_with]; [reflexivity|].
  simpl in Hw. apply andb_true_iff in Hw. destruct Hw as [Hl Hls].
  rewrite <- (put_field_length sender l v) at 1 2.
  rewrite firstn_app, skipn_app, firstn_all, skipn_all.
  rewrite Nat.sub_diag, firstn_O, skipn_O, app_nil_r, app_nil_l.
  now rewrite get_put_field, IH.
Qed.

Lemma received_all_same_host (host : endian) (ls : list leaf) (vs : list Z) :
  Forall2 in_range ls vs -> zip_with (received host host) ls vs = vs.
Proof.
  induction 1 as [|l v ls vs Hv _ IH]; simpl; [reflexivity|].
  now rewrite received_same_host, IH.
Qed.

Lemma encode_received (sender receiver : endian) (ls : list leaf) :
  forallb wide_is_be ls = true ->
  forall vs,
    encode receiver ls (zip_with (received sender receiver) ls vs)
      = encode sender ls vs.
Proof.
  induction ls as [|l ls IH]; intros Hw [|v vs]; simpl; try reflexivity.
  simpl in Hw. apply andb_true_iff in Hw. destruct Hw as [Hl Hls].
  now rewrite put_received, IH.
Qed.

Lemma encode_are_bytes (host : endian) (ls : list leaf) :
  forall vs, Forall is_byte (encode host ls vs).
Proof.
  induction ls as [|l ls IH]; intros [|v vs]; simpl; try constructor.
  apply Forall_app. split; [apply put_field_are_bytes | apply IH].
Qed.

Lemma encode_length (host : endian) (ls : list leaf) (vs : list Z) :
  Forall2 in_range ls vs ->
  length (encode host ls vs) = offset_of_leaf ls (length ls).
Proof.
  induction 1 as [|l v ls vs _ _ IH]; simpl; [reflexivity|].
  now rewrite length_app, put_field_length, IH.
Qed.

Lemma Forall2_member (ls : list leaf) (vs : list Z) :
  Forall2 in_range ls vs ->
  forall k l,
    nth_error ls k = Some l ->
    exists v, nth_error vs k = Some v /\ in_range l v.
Proof.
  induction 1 as [|l0 v0 ls vs Hv _ IH]; intros k l Hl.
  - destruct k; discriminate.
  - destruct k as [|k]; simpl in Hl.
    + inversion Hl; subst. exists v0. split; [reflexivity | assumption].
    + exact (IH k l Hl).
Qed.

Lemma skipn_length_app {A : Type} (l1 l2 : list A) (n : nat) :
  skipn (length l1 + n) (l1 ++ l2) = skipn n l2.
Proof. induction l1 as [|x l1 IH]; simpl; [reflexivity | exact IH]. Qed.

(** The bytes of the [k]-th member sit at its offset in the image,
    whatever follows the header. *)
Lemma encode_member (host : endian) (ls : list leaf) :
  forall (vs : list Z) (k : nat) (l : leaf) (v : Z) (rest : list Z),
    nth_error ls k = Some l ->
    nth_error vs k = Some v ->
    firstn (width l) (skipn (offset_of_leaf ls k) (encode host ls vs ++ rest))
      = put_field host l v.
Proof.
  induction ls as [|l0 ls IH]; intros vs k l v rest Hl Hv.
  - destruct k; discriminate.
  - destruct vs as [|v0 vs]; [destruct k; discriminate|].
    destruct k as [|k]; cbn [encode offset_of_leaf].
    + simpl in Hl, Hv. inversion Hl; inversion Hv; subst.
      rewrite skipn_O, <- app_assoc.
      rewrite <- (put_field_length host l v) at 1.
      rewrite firstn_app, firstn_all, Nat.sub_diag, firstn_O.
      apply app_nil_r.
    + simpl in Hl, Hv. rewrite <- app_assoc.
      rewrite <- (put_field_length host l0 v0) at 1.
      rewrite skipn_length_app.
      now apply IH.
Qed.

Lemma le_value_bound (bs : list Z) :
  Forall is_byte bs -> 0 <= le_value bs < 256 ^ Z.of_nat (length bs).
Proof.
  induction 1 as [|b bs Hb _ IH]; cbn [length le_value]; [simpl; lia|].
  rewrite Nat2Z.inj_succ, Z.pow_succ_r by lia.
  unfold is_byte in Hb. lia.
Qed.

Lemma be_bytes_be_value (bs : list Z) :
  Forall is_byte bs -> be_bytes (length bs) (be_value bs) = bs.
Proof.
  intros Hb. unfold be_bytes, be_value.
  rewrite <- (length_rev bs), le_bytes_le_value by now apply Forall_rev.
  apply rev_involutive.
Qed.

Lemma to_int_injective (x y : Z) :
  0 <= x < 2 ^ 32 -> 0 <= y < 2 ^ 32 -> to_int x = to_int y -> x = y.
Proof.
  unfold to_int.
  change (2 ^ 32) with 4294967296. change (2 ^ 31) with 2147483648.
  intros Hx Hy H.
  pose proof (Z.div_mod (x + 2147483648) 4294967296 ltac:(lia)) as Ex.
  pose proof (Z.div_mod (y + 2147483648) 4294967296 ltac:(lia)) as Ey.
  pose proof (Z.mod_pos_bound (x + 2147483648) 4294967296 ltac:(lia)).
  pose proof (Z.mod_pos_bound (y + 2147483648) 4294967296 ltac:(lia)).
  lia.
Qed.

(** Only the big-endian image of a value makes [homa_data_offset] return
    it: the decoder in the source fixes the byte order of [seg.offset]. *)
Lemma homa_data_offset_fixes_order (host : endian) (pkt : list Z) (v : Z) :
  Forall is_byte pkt ->
  (44 <= length pkt)%nat ->
  0 <= v < 2 ^ 32 ->
  homa_data_offset host pkt = to_int v <-> bytes_at pkt 40 4 = be_bytes 4 v.
Proof.
  intros Hb Hlen Hv.
  rewrite homa_data_offset_big_endian by assumption.
  assert (Hl : length (bytes_at pkt 40 4) = 4%nat).
  { unfold bytes_at. rewrite length_firstn, length_skipn.
    change (Z.to_nat 40) with 40%nat. lia. }
  assert (Hbs : Forall is_byte (bytes_at pkt 40 4)).
  { unfold bytes_at. now apply Forall_firstn, Forall_skipn. }
  split.
  - intros H. apply to_int_injective in H.
    + pose proof (be_bytes_be_value _ Hbs) as Hbe.
      rewrite Hl, H in Hbe. now symmetry.
    + unfold be_value.
      pose proof (le_value_bound (rev (bytes_at pkt 40 4))
                    (Forall_rev Hbs)) as Hbd.
      rewrite length_rev, Hl in Hbd. exact Hbd.
    + exact Hv.
  - intros ->. now rewrite be_value_be_bytes.
Qed.

(** On a DATA header written member by member, followed by any payload,
    [homa_data_offset] returns the value given for [seg.offset], whatever
    the byte orders of the writing and of the reading machine. *)
Lemma homa_data_offset_of_encoded (client server : endian) (vs payload : list Z) :
  Forall2 in_range (header_leaves data_header) vs ->
  Forall is_byte payload ->
  bytes_at (encode client (header_leaves data_header) vs ++ payload) 40 4
    = be_bytes 4 (nth seg_offset_index vs 0) /\
  homa_data_offset server
    (encode client (header_leaves data_header) vs ++ payload)
    = to_int (nth seg_offset_index vs 0).
Proof.
  intros Hr Hp.
  assert (Hv : exists v, nth_error vs seg_offset_index = Some v /\
                         nth seg_offset_index vs 0 = v /\
                         0 <= v < 2 ^ 32).
  { destruct (Forall2_member _ _ Hr seg_offset_index
                (mkLeaf ["seg"; "offset"]%string S_be32) eq_refl)
      as (v & Hnv & Hin).
    exists v. split; [exact Hnv|]. split; [|exact Hin].
    now apply nth_error_nth. }
  destruct Hv as (v & Hnv & -> & Hv).
  assert (Hat : bytes_at (encode client (header_leaves data_header) vs
                          ++ payload) 40 4 = be_bytes 4 v).
  { pose proof (encode_member client (header_leaves data_header) vs
                  seg_offset_index (mkLeaf ["seg"; "offset"]%string S_be32)
                  v payload eq_refl Hnv) as Hm.
    rewrite put_field_wire in Hm by reflexivity.
    exact Hm. }
  split; [exact Hat|].
  apply homa_data_offset_fixes_order; try assumption.
  - apply Forall_app. split; [apply encode_are_bytes | assumption].
  - rewrite length_app, (encode_length _ _ _ Hr).
    change (offset_of_leaf (header_leaves data_header)
              (length (header_leaves data_header))) with 48%nat.
    lia.
Qed.

Lemma wide_members_declared_be (t : homa_packet_type) (h : ctype) :
  header_of t = Some h -> forallb wide_is_be (header_leaves h) = true.
Proof. destruct t; intros H; inversion H; reflexivity. Qed.

(** C7: in every packet header of the source each member wider than one
    byte is declared with a [__be] type, and [common.id] is the only such
    member that goes unconverted; so in the wire image of every packet
    type each multi-byte integer member ([sport], [dport],
    [message_length], [incoming], [cutoff_version], [offset], [length],
    the [unsched_cutoffs] entries) is in big-endian network order whatever
    the byte order of the sender and is read back unchanged by any
    receiver, each at the offset of its member; the 64-bit RPC id alone is
    stored and loaded without conversion, so it travels in the client's
    byte order, and a server that writes back the id it read puts the
    client's very bytes on the wire.  The decoder of the source agrees:
    on a DATA packet [homa_data_offset] returns the value written for
    [seg.offset] on either kind of machine, and no other byte order of
    that member would make it do so. *)
Theorem wire_integers_big_endian_except_id :
  forall (client server : endian) (t : homa_packet_type) (h : ctype)
         (vs : list Z),
    header_of t = Some h ->
    Forall2 in_range (header_leaves h) vs ->
    forallb wide_is_be (header_leaves h) = true /\
    unconverted_members h = [["common"; "id"]%string] /\
    forallb (fun p => existsb (path_eqb p) (converted_members h))
      (listed_members t) = true /\
    encode client (header_leaves h) vs
      = concat (zip_with (wire_image client) (header_leaves h) vs) /\
    (forall k l v rest,
       nth_error (header_leaves h) k = Some l ->
       nth_error vs k = Some v ->
       firstn (width l)
         (skipn (offset_of_leaf (header_leaves h) k)
            (encode client (header_leaves h) vs ++ rest))
         = if is_id l then store client (width l) v
           else be_bytes (width l) v) /\
    decode server (header_leaves h) (encode client (header_leaves h) vs)
      = zip_with (received client server) (header_leaves h) vs /\
    decode client (header_leaves h) (encode client (header_leaves h) vs)
      = vs /\
    encode server (header_leaves h)
      (decode server (header_leaves h) (encode client (header_leaves h) vs))
      = encode client (header_leaves h) vs /\
    (t = DATA ->
     forall payload,
       Forall is_byte payload ->
       homa_data_offset server (encode client (header_leaves h) vs ++ payload)
         = to_int (nth seg_offset_index vs 0) /\
       forall v,
         0 <= v < 2 ^ 32 ->
         (homa_data_offset server
            (encode client (header_leaves h) vs ++ payload) = to_int v <->
          bytes_at (encode client (header_leaves h) vs ++ payload) 40 4
            = be_bytes 4 v)).
Proof.
  intros client server t h vs Hh Hvs.
  pose proof (wide_members_declared_be t h Hh) as Hw.
  split; [exact Hw|].
  split.
  { destruct t; simpl in Hh; inversion Hh; reflexivity. }
  split.
  { destruct t; simpl in Hh; inversion Hh; reflexivity. }
  split; [now apply encode_wire|].
  split.
  { intros k l v rest Hl Hv.
    rewrite (encode_member client _ vs k l v rest Hl Hv).
    apply put_field_wire.
    apply nth_error_In in Hl.
    exact (proj1 (forallb_forall _ _) Hw l Hl). }
  split; [now apply decode_encode|].
  split.
  { rewrite decode_encode by assumption.
    now apply received_all_same_host. }
  split.
  { rewrite decode_encode by assumption.
    now apply encode_received. }
  intros Ht payload Hp. subst t. simpl in Hh. inversion Hh; subst h.
  split; [now apply homa_data_offset_of_encoded|].
  intros v Hv.
  apply homa_data_offset_fixes_order; try assumption.
  - apply Forall_app. split; [apply encode_are_bytes | assumption].
  - rewrite length_app, (encode_length _ _ _ Hvs).
    change (offset_of_leaf (header_leaves data_header)
              (length (header_leaves data_header))) with 48%nat.
    lia.
Qed.

(** A GRANT for offset 70000 at priority 3, from port 1000 to port 2000,
    RPC id 258, sent by a little-endian client to a big-endian server; and
    a DATA packet at offset 1400 from the same client. *)
Lemma wire_integers_big_endian_except_id_witness :
  encode LittleEndian (header_leaves grant_header) sample_grant
    = [3; 232; 7; 208; 0; 0; 0; 0; 0; 0; 0; 0; 0; 21; 0; 0; 0; 0; 0; 0;
       2; 1; 0; 0; 0; 0; 0; 0; 0; 1; 17; 112; 3] /\
  decode BigEndian (header_leaves grant_header)
    (encode LittleEndian (header_leaves grant_header) sample_grant)
    = [1000; 2000; 0; 0; 0; 21; 0; 0; 0; 144396663052566528; 70000; 3] /\
  encode BigEndian (header_leaves grant_header)
    (decode BigEndian (header_leaves grant_header)
       (encode LittleEndian (header_leaves grant_header) sample_grant))
    = encode LittleEndian (header_leaves grant_header) sample_grant /\
  homa_data_offset BigEndian
    (encode LittleEndian (header_leaves data_header) sample_data
     ++ sample_payload) = 1400 /\
  homa_data_offset LittleEndian
    (encode LittleEndian (header_leaves data_header) sample_data
     ++ sample_payload) = 1400.
Proof.
  assert (Hr : Forall2 in_range (header_leaves grant_header) sample_grant).
  { unfold sample_grant. repeat constructor; vm_compute; discriminate. }
  assert (Hd : Forall2 in_range (header_leaves data_header) sample_data).
  { unfold sample_data. repeat constructor; vm_compute; discriminate. }
  assert (Hp : Forall is_byte sample_payload).
  { unfold sample_payload. repeat constructor; vm_compute; discriminate. }
  pose proof (wire_integers_big_endian_except_id LittleEndian BigEndian
                GRANT grant_header sample_grant eq_refl Hr)
    as (_ & _ & _ & Hw & _ & Hdec & _ & He & _).
  pose proof (wire_integers_big_endian_except_id LittleEndian BigEndian
                DATA data_header sample_data eq_refl Hd)
    as (_ & _ & _ & _ & _ & _ & _ & _ & Hbig).
  pose proof (wire_integers_big_endian_except_id LittleEndian LittleEndian
                DATA data_header sample_data eq_refl Hd)
    as (_ & _ & _ & _ & _ & _ & _ & _ & Hlittle).
  split; [|split; [|split; [|split]]].
  - rewrite Hw. reflexivity.
  - rewrite Hdec. reflexivity.
  - exact He.
  - rewrite (proj1 (Hbig eq_refl sample_payload Hp)). reflexivity.
  - rewrite (proj1 (Hlittle eq_refl sample_payload Hp)). reflexivity.
Defined.

End CodecFacts.

(** ** The pacer's fast-path hook *)

Module PacerFacts.
Import Pacer.

Section CheckPacer.

(** Whatever [homa_pacer_xmit] does to the state. *)
Variable homa_pacer_xmit : homa -> Z -> homa.

(** Within the ranges in which nothing wraps (a non-negative queue limit,
    a non-negative idle time, a sum below 2^64) the comparison made by the
    code is the comparison of the mathematical values. *)
Lemma check_pacer_condition_exact (now : Z) (h : homa) :
  0 <= now ->
  0 <= max_nic_queue_cycles h ->
  now + max_nic_queue_cycles h < 2 ^ 64 ->
  0 <= link_idle_time h < 2 ^ 63 ->
  (queue_limit now h >= idle_time h <->
   now + max_nic_queue_cycles h >= link_idle_time h).
Proof.
  intros Hn Hm Hs Hi. unfold queue_limit, idle_time, to_u64.
  rewrite !Z.mod_small by lia. reflexivity.
Qed.

Lemma check_pacer_cases (now : Z) (h : homa) (softirq : Z) :
  (throttled_rpcs h <> [] /\ queue_limit now h >= idle_time h /\
   check_pacer homa_pacer_xmit now h softirq
     = (homa_pacer_xmit h softirq, [Call_homa_pacer_xmit softirq])) \/
  (~ (throttled_rpcs h <> [] /\ queue_limit now h >= idle_time h) /\
   check_pacer homa_pacer_xmit now h softirq = (h, [])).
Proof.
  unfold check_pacer.
  destruct (throttled_rpcs h) as [|r rest]; simpl.
  - right. split; [|reflexivity]. intros [Hne _]. now apply Hne.
  - destruct (queue_limit now h <? idle_time h) eqn:Hc.
    + apply Z.ltb_lt in Hc. right. split; [|reflexivity].
      intros [_ Hge]. lia.
    + apply Z.ltb_ge in Hc. left.
      split; [discriminate|]. split; [lia | reflexivity].
Qed.

(** C2: [check_pacer] calls [homa_pacer_xmit] exactly when the throttled
    list is not empty and [get_cycles() + max_nic_queue_cycles] is at least
    [link_idle_time] (the comparison of the code, which is the comparison
    of the mathematical values when nothing wraps); when either condition
    fails it makes no call and returns the state as it found it. *)
Theorem check_pacer_calls_iff (now : Z) (h : homa) (softirq : Z) :
  (snd (check_pacer homa_pacer_xmit now h softirq) = [Call_homa_pacer_xmit softirq] <->
   throttled_rpcs h <> [] /\ queue_limit now h >= idle_time h) /\
  (snd (check_pacer homa_pacer_xmit now h softirq) = [Call_homa_pacer_xmit softirq] ->
   fst (check_pacer homa_pacer_xmit now h softirq) = homa_pacer_xmit h softirq) /\
  (~ (throttled_rpcs h <> [] /\ queue_limit now h >= idle_time h) ->
   check_pacer homa_pacer_xmit now h softirq = (h, [])) /\
  (0 <= now ->
   0 <= max_nic_queue_cycles h ->
   now + max_nic_queue_cycles h < 2 ^ 64 ->
   0 <= link_idle_time h < 2 ^ 63 ->
   (snd (check_pacer homa_pacer_xmit now h softirq) = [Call_homa_pacer_xmit softirq] <->
    throttled_rpcs h <> [] /\
    now + max_nic_queue_cycles h >= link_idle_time h)).
Proof.
  assert (Hiff :
    snd (check_pacer homa_pacer_xmit now h softirq) = [Call_homa_pacer_xmit softirq] <->
    throttled_rpcs h <> [] /\ queue_limit now h >= idle_time h).
  { destruct (check_pacer_cases now h softirq)
      as [(Hne & Hge & Heq) | (Hn & Heq)]; rewrite Heq; simpl.
    - split; [now intros _ | reflexivity].
    - split; [discriminate | intros Hc; now elim Hn]. }
  split; [exact Hiff|].
  split.
  { destruct (check_pacer_cases now h softirq)
      as [(_ & _ & Heq) | (_ & Heq)]; rewrite Heq; simpl;
      [reflexivity | discriminate]. }
  split.
  { intros Hn.
    destruct (check_pacer_cases now h softirq)
      as [(Hne & Hge & _) | (_ & Heq)]; [|exact Heq].
    elim Hn. now split. }
  intros H1 H2 H3 H4.
  rewrite Hiff, (check_pacer_condition_exact now h H1 H2 H3 H4).
  reflexivity.
Qed.

End CheckPacer.

(** At cycle 5000 the limit is 6000: an idle time of 6000 still leaves
    slack, one of 6001 does not. *)
Lemma check_pacer_calls_iff_witness :
  snd (check_pacer (fun h _ => h) 5000 (sample_homa 6000) 1)
    = [Call_homa_pacer_xmit 1] /\
  check_pacer (fun h _ => h) 5000 (sample_homa 6001) 1
    = (sample_homa 6001, []).
Proof.
  split.
  - apply (proj2 (proj1 (check_pacer_calls_iff (fun h _ => h) 5000
                            (sample_homa 6000) 1))).
    split; [discriminate | vm_compute; discriminate].
  - apply (proj1 (proj2 (proj2 (check_pacer_calls_iff (fun h _ => h) 5000
                                   (sample_homa 6001) 1)))).
    intros [_ Hge]. vm_compute in Hge. apply Hge. reflexivity.
Defined.

End PacerFacts.

(** ** Outgoing messages and the RPC state machine *)

Module RpcFacts.
Import Rpc.

(** *** Splitting a message into packets *)

Lemma sum_firstn_bounds (l : list Z) :
  Forall (fun p => 0 < p) l ->
  forall n, 0 <= sum (firstn n l) <= sum l.
Proof.
  induction 1 as [|x l Hx _ IH]; intros n.
  - rewrite firstn_nil. simpl. lia.
  - destruct n as [|n]; simpl.
    + specialize (IH 0%nat). simpl in IH. lia.
    + specialize (IH n). lia.
Qed.

Lemma packet_count_zero (len max_pkt : Z) :
  0 < max_pkt -> 0 <= len -> packet_count len max_pkt = 0%nat -> len = 0.
Proof.
  unfold packet_count. intros Hm Hl Hc.
  assert (Hq : (len + max_pkt - 1) / max_pkt <= 0) by lia.
  destruct (Z.eq_dec len 0) as [|Hne]; [assumption|].
  assert (1 <= (len + max_pkt - 1) / max_pkt); [|lia].
  apply Z.div_le_lower_bound; lia.
Qed.

Lemma packet_count_succ (len max_pkt : Z) (c : nat) :
  0 < max_pkt -> 0 <= len -> packet_count len max_pkt = S c ->
  0 < len /\ (max_pkt < len -> packet_count (len - max_pkt) max_pkt = c) /\
  (len <= max_pkt -> c = 0%nat).
Proof.
  unfold packet_count. intros Hm Hl Hc.
  assert (Hq : (len + max_pkt - 1) / max_pkt = Z.of_nat (S c)) by lia.
  assert (Hpos : 0 < len).
  { destruct (Z.eq_dec len 0) as [->|]; [|lia].
    rewrite Z.div_small in Hq by lia. lia. }
  split; [assumption|]. split.
  - intros Hgt.
    replace (len - max_pkt + max_pkt - 1)
      with (len + max_pkt - 1 + (-1) * max_pkt) by lia.
    rewrite Z.div_add by lia. lia.
  - intros Hle.
    assert ((len + max_pkt - 1) / max_pkt < 2); [|lia].
    apply Z.div_lt_upper_bound; lia.
Qed.

Lemma split_message_spec (max_pkt : Z) (count : nat) :
  0 < max_pkt ->
  forall len,
    0 <= len -> packet_count len max_pkt = count ->
    Forall (fun p => 0 < p) (split_message count len max_pkt) /\
    sum (split_message count len max_pkt) = len.
Proof.
  intros Hm. induction count as [|c IH]; intros len Hl Hc.
  - simpl. split; [constructor|].
    symmetry. now apply (packet_count_zero len max_pkt).
  - destruct (packet_count_succ len max_pkt c Hm Hl Hc) as (Hpos & Hbig & Hsmall).
    cbn [split_message sum].
    destruct (Z_lt_le_dec max_pkt len) as [Hgt|Hle].
    + destruct (IH (len - max_pkt)) as [Hall Hsum]; [lia | now apply Hbig |].
      split; [constructor; [lia | assumption] | lia].
    + rewrite (Hsmall Hle). simpl. split; [repeat constructor; lia | lia].
Qed.

(** *** The invariant of the outgoing descriptor *)

Lemma init_inv (len max_pkt unsched : Z) :
  0 <= len -> 0 < max_pkt -> 0 <= unsched ->
  out_inv (homa_message_out_init len max_pkt unsched).
Proof.
  intros Hl Hm Hu.
  destruct (split_message_spec max_pkt (packet_count len max_pkt) Hm len Hl
              eq_refl) as [Hall Hsum].
  unfold out_inv, homa_message_out_init; simpl.
  repeat split; try assumption; lia.
Qed.

Lemma grant_inv (offset prio : Z) (m : homa_message_out.t) :
  out_inv m -> out_inv (grant_msgout offset prio m).
Proof.
  unfold out_inv, grant_msgout, packet_offset; simpl.
  intros (Hall & Hsum & Hnext & Hg & Hu & Hlast).
  destruct (homa_message_out.granted m <? offset) eqn:Hc;
    [apply Z.ltb_lt in Hc | apply Z.ltb_ge in Hc];
    repeat split; try assumption; try lia;
    (destruct Hlast as [H0|Hlt]; [left; exact H0 | right; lia]).
Qed.

Lemma advance_inv (m : homa_message_out.t) :
  out_inv m ->
  (homa_message_out.next_packet m
     < List.length (homa_message_out.packets m))%nat ->
  bytes_sent m < homa_message_out.granted m ->
  out_inv (advance m).
Proof.
  unfold out_inv, advance, bytes_sent, packet_offset; simpl.
  intros (Hall & Hsum & Hnext & Hg & Hu & Hlast) Hlt Hb.
  repeat split; try assumption; try lia.
  right. now rewrite Nat.sub_0_r.
Qed.

Lemma xmit_inv (budget : nat) :
  forall m, out_inv m -> out_inv (xmit_msgout budget m).
Proof.
  induction budget as [|b IH]; intros m Hm; simpl; [assumption|].
  destruct (homa_message_out.next_packet m
              <? List.length (homa_message_out.packets m))%nat eqn:Hn;
    simpl; [|assumption].
  destruct (bytes_sent m <? homa_message_out.granted m) eqn:Hb;
    [|assumption].
  apply IH, advance_inv; [assumption | now apply Nat.ltb_lt | now apply Z.ltb_lt].
Qed.

Lemma reset_inv (m : homa_message_out.t) : out_inv m -> out_inv (reset_msgout m).
Proof.
  unfold out_inv, reset_msgout; simpl.
  intros (Hall & Hsum & Hnext & Hg & Hu & Hlast).
  repeat split; try assumption; lia.
Qed.

Lemma out_inv_bounds (m : homa_message_out.t) : out_inv m -> actual_bounds m.
Proof.
  unfold out_inv, actual_bounds, bytes_sent, packet_offset.
  intros (Hall & Hsum & Hnext & Hg & Hu & Hlast).
  pose proof (sum_firstn_bounds _ Hall (homa_message_out.next_packet m)).
  repeat split; try assumption; lia.
Qed.

(** *** Steps preserve the invariant *)

Ltac case_ifs :=
  repeat match goal with
         | |- context [if ?c then _ else _] => destruct c
         | H : context [if ?c then _ else _] |- _ => destruct c
         end.


Ltac close_inv lem :=
  match goal with
  | H : out_inv ?m \/ _ |- _ =>
      destruct H as [H|[Hrole Hst]];
      [ left; first [exact H | apply lem; exact H]
      | first [ right; split; [exact Hrole | discriminate]
              | discriminate
              | exfalso; apply Hst; reflexivity ] ]
  end.

Lemma step_inv (r : homa_rpc) (e : event) (r' : homa_rpc) :
  rpc_inv r -> event_ok e -> step r e = Some r' -> rpc_inv r'.
Proof.
  intros Hinv Hok Hstep.
  destruct r as [dp i st cl er mi mo stk nr].
  unfold rpc_inv in *. simpl in Hinv.
  destruct e; simpl in Hstep, Hok.
  - (* DATA *)
    inversion Hstep; subst r'; clear Hstep.
    unfold homa_data_pkt, merge_data, homa_rpc_ready; simpl.
    destruct st, cl; simpl; case_ifs; simpl; close_inv reset_inv.
  - (* GRANT *)
    inversion Hstep; subst r'; clear Hstep.
    unfold homa_grant_pkt; simpl.
    destruct st, cl; simpl; close_inv (grant_inv offset priority).
  - (* RESEND *)
    inversion Hstep; subst r'; clear Hstep. simpl.
    destruct st, cl; close_inv reset_inv.
  - (* RESTART *)
    inversion Hstep; subst r'; clear Hstep.
    unfold homa_restart_pkt, awaiting_peer; simpl.
    destruct st, cl; simpl; close_inv reset_inv.
  - (* BUSY *)
    inversion Hstep; subst r'; clear Hstep. simpl.
    destruct st, cl; close_inv reset_inv.
  - (* read *)
    inversion Hstep; subst r'; clear Hstep.
    unfold app_recv; simpl.
    destruct st, cl; simpl; close_inv reset_inv.
  - (* reply *)
    inversion Hstep; subst r'; clear Hstep.
    destruct Hok as (Hl & Hm & Hu).
    unfold app_reply; simpl.
    destruct st, cl; simpl;
      try (close_inv reset_inv);
      left; now apply init_inv.
  - (* transmission *)
    unfold homa_xmit_data in Hstep; simpl in Hstep.
    destruct st, cl; simpl in Hstep; case_ifs;
      inversion Hstep; subst r'; clear Hstep; simpl;
      close_inv (xmit_inv budget).
  - (* timeout *)
    unfold abort, awaiting_peer, homa_rpc_abort, homa_rpc_ready in Hstep;
      simpl in Hstep.
    destruct st, cl; simpl in Hstep;
      inversion Hstep; subst r'; clear Hstep; simpl;
      close_inv reset_inv.
  - (* peer abort *)
    unfold abort, awaiting_peer, homa_rpc_abort, homa_rpc_ready in Hstep;
      simpl in Hstep.
    destruct st, cl; simpl in Hstep;
      inversion Hstep; subst r'; clear Hstep; simpl;
      close_inv reset_inv.
Qed.

Lemma run_inv (es : list event) :
  forall r r',
    rpc_inv r -> Forall event_ok es -> run r es = Some r' -> rpc_inv r'.
Proof.
  induction es as [|e es IH]; intros r r' Hinv Hok Hrun; simpl in Hrun.
  - now inversion Hrun; subst.
  - inversion Hok as [|? ? He Hes]; subst.
    destruct (step r e) as [r1|] eqn:Hs; [|discriminate].
    apply (IH r1 r'); [|assumption|assumption].
    now apply (step_inv r e r1).
Qed.

Lemma created_inv (r : homa_rpc) : created r -> rpc_inv r.
Proof.
  intros [rpc_id port len max_pkt unsched Hl Hm Hu | rpc_id port ml inc].
  - left. now apply init_inv.
  - right. split; [reflexivity | discriminate].
Qed.

(** *** Outgoing-message bounds *)

(** The stated bounds leave no room for an unscheduled window larger than
    the message, which the comment of [unscheduled] allows: whatever
    [granted] is, they force [unscheduled <= length] once a packet has been
    sent. *)
Lemma stated_bounds_short_window (m : homa_message_out.t) :
  stated_bounds m ->
  (0 < homa_message_out.next_packet m)%nat ->
  homa_message_out.unscheduled m <= homa_message_out.length m.
Proof. unfold stated_bounds. intros (_ & _ & Hg & Hu) Hsent. specialize (Hu Hsent). lia. Qed.

(** C1, as amended: for every RPC in state OUTGOING, at all times
    0 <= bytes_sent <= length and 0 <= granted <= length; [granted] is at
    least the smaller of [unscheduled] and [length]; and every packet buffer
    handed to transmission starts below [granted] (the last one may reach
    beyond it). *)
Theorem outgoing_message_bounds (r0 : homa_rpc) (es : list event)
  (r : homa_rpc) :
  created r0 ->
  Forall event_ok es ->
  run r0 es = Some r ->
  state r = RPC_OUTGOING ->
  actual_bounds (msgout r).
Proof.
  intros Hc Hok Hrun Hst.
  apply out_inv_bounds.
  destruct (run_inv es r0 r (created_inv r0 Hc) Hok Hrun) as [H|[_ Hne]].
  - exact H.
  - contradiction.
Qed.

Lemma scenario_large_created : created scenario_large.
Proof. apply created_client; lia. Defined.


Lemma outgoing_message_bounds_witness :
  exists r,
    run scenario_large scenario_large_events = Some r /\
    actual_bounds (msgout r).
Proof.
  eexists. split.
  - vm_compute. reflexivity.
  - apply (outgoing_message_bounds scenario_large scenario_large_events).
    + exact scenario_large_created.
    + repeat constructor.
    + vm_compute. reflexivity.
    + reflexivity.
Defined.

(** C1 as stated fails.  In scenario 2 the packet at offset 39200 starts
    below the grant of 40000 and is sent whole, so 40600 bytes have been
    sent with 40000 granted; in scenario 1 the 500-byte message has been
    sent with [unscheduled] = 10000 and [granted] = 500. *)
Lemma outgoing_message_stated_bounds_fail :
  (exists r,
     run scenario_large scenario_large_events = Some r /\
     state r = RPC_OUTGOING /\
     bytes_sent (msgout r) = 40600 /\
     homa_message_out.granted (msgout r) = 40000 /\
     ~ stated_bounds (msgout r)) /\
  (exists r,
     run scenario_small scenario_small_events = Some r /\
     state r = RPC_OUTGOING /\
     homa_message_out.next_packet (msgout r) = 1%nat /\
     homa_message_out.unscheduled (msgout r) = 10000 /\
     homa_message_out.granted (msgout r) = 500 /\
     ~ stated_bounds (msgout r)).
Proof.
  split.
  - eexists. split; [vm_compute; reflexivity|].
    split; [reflexivity|]. split; [vm_compute; reflexivity|].
    split; [reflexivity|].
    unfold stated_bounds. intros (_ & H & _).
    vm_compute in H. apply H. reflexivity.
  - eexists. split; [vm_compute; reflexivity|].
    split; [reflexivity|]. split; [reflexivity|].
    split; [reflexivity|]. split; [reflexivity|].
    unfold stated_bounds. intros (_ & _ & _ & H).
    assert (H' := H ltac:(simpl; lia)).
    vm_compute in H'. apply H'. reflexivity.
Qed.

(** *** State transitions *)








End RpcFacts.

(** ** The grant queue *)

Module GrantFacts.
Import Grant.

(** *** Lists of handles *)

Lemma linked_In (h : Z) (l : list Z) : linked h l = true <-> In h l.
Proof.
  unfold linked. rewrite existsb_exists. split.
  - intros (x & Hx & E). apply Z.eqb_eq in E. now subst.
  - intros H. exists h. split; [assumption | apply Z.eqb_refl].
Qed.








(** *** Sorted lists *)








(** *** The calls, one by one *)









(** *** The queue stays sorted *)




End GrantFacts.

(** ** Priorities of unscheduled packets *)

Module CutoffsFacts.
Import Cutoffs.

(** *** The search *)

Lemma highest_level_found (c : list Z) (len : Z) (i : nat) :
  (exists k, (k < i)%nat /\ len <= nth k c 0) ->
  exists p,
    highest_level i c len = Some p /\ (p < i)%nat /\ len <= nth p c 0 /\
    (forall j, (p < j < i)%nat -> nth j c 0 < len).
Proof.
  induction i as [|i IH]; intros (k & Hk & Hle); [lia|].
  simpl. destruct (len <=? nth i c 0) eqn:Hc.
  - apply Z.leb_le in Hc. exists i. repeat split; try lia.
  - apply Z.leb_gt in Hc.
    assert (Hki : (k < i)%nat).
    { destruct (Nat.eq_dec k i) as [->|]; lia. }
    destruct IH as (p & Hp & Hpi & Hple & Hmax); [now exists k|].
    exists p. repeat split; try assumption; try lia.
    intros j Hj. destruct (Nat.eq_dec j i) as [->|]; [assumption|].
    apply Hmax. lia.
Qed.

Lemma invariant_entry (c : list Z) :
  cutoffs_invariant c ->
  exists k, (k < List.length c)%nat /\ HOMA_MAX_MESSAGE_SIZE <= nth k c 0.
Proof.
  intros H. apply Exists_nth in H. destruct H as (k & d & Hk & Hle).
  exists k. split; [assumption|]. now rewrite (nth_indep c 0 d Hk).
Qed.

Lemma cutoffs_invariantb_spec (c : list Z) :
  cutoffs_invariantb c = true <-> cutoffs_invariant c.
Proof.
  unfold cutoffs_invariantb, cutoffs_invariant.
  rewrite existsb_exists, Exists_exists.
  split; intros (x & Hx & Hle); exists x; split; try assumption;
    now apply Z.leb_le.
Qed.

(** *** CUTOFFS packets carry the array unchanged *)

Lemma to_int_to_u32 (x : Z) : is_int x -> Codec.to_int (to_u32 x) = x.
Proof.
  unfold is_int, INT_MIN, INT_MAX, Codec.to_int, to_u32. intros Hx.
  rewrite Zplus_mod_idemp_l. rewrite Z.mod_small; lia.
Qed.

Lemma cutoffs_pkt_same (c : list Z) :
  Forall is_int c -> homa_cutoffs_pkt (cutoffs_packet c) = c.
Proof.
  unfold homa_cutoffs_pkt, cutoffs_packet.
  induction 1 as [|x c Hx _ IH]; cbn [map]; [reflexivity|].
  now rewrite to_int_to_u32, IH.
Qed.

(** When at least one of the eight entries of the cutoffs array is
    [HOMA_MAX_MESSAGE_SIZE] or greater, every message length from 0 to
    [HOMA_MAX_MESSAGE_SIZE] is at most some entry, and
    [homa_unsched_priority] finds a priority level for it (the highest
    level whose cutoff admits the length). *)
Theorem unsched_priority_found (c : list Z) (len : Z) :
  List.length c = HOMA_NUM_PRIORITIES ->
  Forall is_int c ->
  cutoffs_invariant c ->
  0 <= len <= HOMA_MAX_MESSAGE_SIZE ->
  (exists i, (i < HOMA_NUM_PRIORITIES)%nat /\ len <= nth i c 0) /\
  (exists p,
     homa_unsched_priority c len = Some p /\
     (p < HOMA_NUM_PRIORITIES)%nat /\
     len <= nth p c 0 /\
     (forall j, (p < j < HOMA_NUM_PRIORITIES)%nat -> nth j c 0 < len)) /\
  homa_cutoffs_pkt (cutoffs_packet c) = c /\
  cutoffs_invariant (homa_cutoffs_pkt (cutoffs_packet c)).
Proof.
  intros Hlen Hint Hinv Hl.
  destruct (invariant_entry c Hinv) as (k & Hk & Hle).
  rewrite Hlen in Hk.
  assert (Hex : exists i, (i < HOMA_NUM_PRIORITIES)%nat /\ len <= nth i c 0)
    by (exists k; split; [assumption | lia]).
  split; [exact Hex|].
  split; [now apply highest_level_found|].
  rewrite cutoffs_pkt_same by assumption.
  split; [reflexivity | assumption].
Qed.

Lemma unsched_priority_found_witness :
  homa_unsched_priority sample_cutoffs 500 = Some 5%nat /\
  (exists p,
     homa_unsched_priority sample_cutoffs HOMA_MAX_MESSAGE_SIZE = Some p /\
     (p < HOMA_NUM_PRIORITIES)%nat /\
     HOMA_MAX_MESSAGE_SIZE <= nth p sample_cutoffs 0 /\
     (forall j, (p < j < HOMA_NUM_PRIORITIES)%nat ->
                nth j sample_cutoffs 0 < HOMA_MAX_MESSAGE_SIZE)).
Proof.
  split; [reflexivity|].
  apply (unsched_priority_found sample_cutoffs HOMA_MAX_MESSAGE_SIZE).
  - reflexivity.
  - unfold sample_cutoffs. repeat constructor; vm_compute; discriminate.
  - apply cutoffs_invariantb_spec. reflexivity.
  - vm_compute. split; discriminate.
Defined.

(** *** The invariant is necessary, and nothing installs it *)






End CutoffsFacts.

(** ** Hash tables for sockets and RPCs *)

Module TablesFacts.
Import Tables.

Lemma land_1023 (x : Z) : Z.land x 1023 = x mod 1024.
Proof. change 1023 with (Z.ones 10). now rewrite Z.land_ones by lia. Qed.

Lemma mod_1024_eq_iff (p q : Z) :
  p mod 1024 = q mod 1024 <-> exists k, q = p + k * 1024.
Proof.
  pose proof (Z.div_mod p 1024 ltac:(lia)) as Hp.
  pose proof (Z.div_mod q 1024 ltac:(lia)) as Hq.
  split.
  - intros Heq. exists (q / 1024 - p / 1024). lia.
  - intros [k ->]. now rewrite Z_mod_plus_full.
Qed.

Lemma mod_1024_succ (x w : Z) :
  (1024 | w) -> ((x + 1) mod w) mod 1024 = (x mod 1024 + 1) mod 1024.
Proof.
  intros Hw. rewrite Z.mod_mod_divide by assumption.
  now rewrite Zplus_mod_idemp_l.
Qed.

(** X1: [homa_port_hash] always yields an index into the 1024 buckets of the
    socket table, namely the port modulo 1024; and the port that follows in
    the 16-bit counter, wrap-around included, falls into the next bucket. *)
Theorem port_hash_in_table (port : Z) :
  0 <= homa_port_hash port < HOMA_SOCKTAB_BUCKETS /\
  homa_port_hash port = port mod HOMA_SOCKTAB_BUCKETS /\
  homa_port_hash ((port + 1) mod 2 ^ 16)
    = (homa_port_hash port + 1) mod HOMA_SOCKTAB_BUCKETS.
Proof.
  unfold homa_port_hash, HOMA_SOCKTAB_BUCKETS.
  change (1024 - 1) with 1023. rewrite !land_1023.
  split; [apply Z.mod_pos_bound; lia|].
  split; [reflexivity|].
  apply mod_1024_succ. exists 64. reflexivity.
Qed.

(** X2: two ports share a bucket of the socket table exactly when they
    differ by a multiple of 1024; so any 1024 consecutive ports, as
    sequential allocation produces them, occupy 1024 different buckets. *)
Theorem port_hash_collisions (p q : Z) :
  (homa_port_hash p = homa_port_hash q <->
   exists k, q = p + k * HOMA_SOCKTAB_BUCKETS) /\
  (p < q < p + HOMA_SOCKTAB_BUCKETS ->
   homa_port_hash p <> homa_port_hash q).
Proof.
  unfold homa_port_hash, HOMA_SOCKTAB_BUCKETS.
  change (1024 - 1) with 1023. rewrite !land_1023.
  split; [apply mod_1024_eq_iff|].
  intros Hpq Heq. apply mod_1024_eq_iff in Heq. destruct Heq as [k Hk]. lia.
Qed.

(** X3: for every RPC id, [homa_client_rpc_bucket] and
    [homa_server_rpc_bucket] index within the 1024 entries of their
    tables, at the id modulo 1024, and client and server file an id under
    the same index. *)
Theorem rpc_bucket_in_table (id : Z) :
  0 <= homa_client_rpc_bucket id < HOMA_CLIENT_RPC_BUCKETS /\
  0 <= homa_server_rpc_bucket id < HOMA_SERVER_RPC_BUCKETS /\
  homa_client_rpc_bucket id = id mod HOMA_CLIENT_RPC_BUCKETS /\
  homa_server_rpc_bucket id = homa_client_rpc_bucket id.
Proof.
  unfold homa_client_rpc_bucket, homa_server_rpc_bucket,
    HOMA_CLIENT_RPC_BUCKETS, HOMA_SERVER_RPC_BUCKETS.
  change (1024 - 1) with 1023. rewrite !land_1023.
  pose proof (Z.mod_pos_bound id 1024 ltac:(lia)).
  repeat split; lia.
Qed.

(** X4: ids allocated sequentially from a 64-bit counter go round the RPC
    buckets in turn, also across the wrap-around of the counter, and two
    ids less than 1024 apart never share a bucket. *)
Theorem rpc_bucket_sequential (id other : Z) :
  homa_client_rpc_bucket ((id + 1) mod 2 ^ 64)
    = (homa_client_rpc_bucket id + 1) mod HOMA_CLIENT_RPC_BUCKETS /\
  homa_server_rpc_bucket ((id + 1) mod 2 ^ 64)
    = (homa_server_rpc_bucket id + 1) mod HOMA_SERVER_RPC_BUCKETS /\
  (id < other < id + HOMA_CLIENT_RPC_BUCKETS ->
   homa_client_rpc_bucket id <> homa_client_rpc_bucket other /\
   homa_server_rpc_bucket id <> homa_server_rpc_bucket other).
Proof.
  unfold homa_client_rpc_bucket, homa_server_rpc_bucket,
    HOMA_CLIENT_RPC_BUCKETS, HOMA_SERVER_RPC_BUCKETS.
  change (1024 - 1) with 1023. rewrite !land_1023.
  assert (Hd : (1024 | 2 ^ 64)) by (exists (2 ^ 54); reflexivity).
  split; [now apply mod_1024_succ|].
  split; [now apply mod_1024_succ|].
  intros Hio.
  assert (Hne : id mod 1024 <> other mod 1024).
  { intros Heq. apply mod_1024_eq_iff in Heq. destruct Heq as [k Hk]. lia. }
  now split.
Qed.

Lemma port_hash_collisions_witness :
  homa_port_hash 32768 = 0 /\
  homa_port_hash 33791 = 1023 /\
  homa_port_hash 32768 <> homa_port_hash 33791 /\
  homa_port_hash 32768 = homa_port_hash (32768 + 1024).
Proof.
  split; [reflexivity|]. split; [reflexivity|]. split.
  - apply (proj2 (port_hash_collisions 32768 33791)).
    unfold HOMA_SOCKTAB_BUCKETS. lia.
  - apply (proj1 (port_hash_collisions 32768 (32768 + 1024))).
    exists 1. reflexivity.
Defined.

Lemma rpc_bucket_sequential_witness :
  homa_client_rpc_bucket (2 ^ 64 - 1) = 1023 /\
  homa_client_rpc_bucket ((2 ^ 64 - 1 + 1) mod 2 ^ 64) = 0 /\
  homa_client_rpc_bucket 5 <> homa_client_rpc_bucket 1028.
Proof.
  split; [reflexivity|]. split.
  - rewrite (proj1 (rpc_bucket_sequential (2 ^ 64 - 1) 0)). reflexivity.
  - apply (proj2 (proj2 (rpc_bucket_sequential 5 1028))).
    unfold HOMA_CLIENT_RPC_BUCKETS. lia.
Defined.

End TablesFacts.

(** ** TCP segmentation offload and the [doff] byte *)

Module OffloadFacts.
Import Wire Codec Offload.

Lemma land_3_mod (n : Z) : Z.land n 3 = n mod 4.
Proof. change 3 with (Z.ones 2). now rewrite Z.land_ones by lia. Qed.

Lemma land_15_mod (n : Z) : Z.land n 15 = n mod 16.
Proof. change 15 with (Z.ones 4). now rewrite Z.land_ones by lia. Qed.

Lemma doff_of_small_prefix (n : Z) :
  0 <= n < 64 -> n mod 4 = 0 ->
  doff_of_prefix n = 4 * n /\
  tcp_header_bytes (doff_of_prefix n) = n /\
  Z.land (doff_of_prefix n) 15 = 0.
Proof.
  intros Hn H4. unfold doff_of_prefix, tcp_header_bytes.
  rewrite Z.shiftl_mul_pow2 by lia. change (2 ^ 2) with 4.
  rewrite Z.mod_small by lia.
  rewrite Z.shiftr_div_pow2 by lia. change (2 ^ 4) with 16.
  rewrite land_15_mod.
  pose proof (Z.div_mod n 4 ltac:(lia)) as Hd. rewrite H4 in Hd.
  assert (Hn4 : n * 4 = (n / 4) * 16) by lia.
  rewrite Hn4, Z.div_mul, Z.mod_mul by lia.
  repeat split; lia.
Qed.

(** X5: the two compile-time checks on [struct data_header] are what makes
    [homa_set_doff] right: for any header size that passes them, the byte
    it computes has the length of the DATA prefix, in 4-byte words, in its
    high-order four bits and zero in the low-order four, so that a TCP
    offload engine takes exactly the prefix for the header. *)
Theorem static_asserts_make_doff_right (size seg : Z) :
  0 < seg <= size ->
  asserts_hold size seg = true ->
  tcp_header_bytes (doff_of_prefix (size - seg)) = size - seg /\
  Z.land (doff_of_prefix (size - seg)) 15 = 0 /\
  0 <= doff_of_prefix (size - seg) < 256.
Proof.
  intros Hs Ha. unfold asserts_hold, HOMA_MAX_HEADER in Ha.
  apply andb_true_iff in Ha. destruct Ha as [Hmax Hal].
  apply Z.leb_le in Hmax. apply Z.eqb_eq in Hal. rewrite land_3_mod in Hal.
  destruct (doff_of_small_prefix (size - seg)) as (Hv & Ht & Hl);
    [lia | assumption |].
  repeat split; try assumption; lia.
Qed.

Lemma static_asserts_make_doff_right_witness :
  asserts_hold (sizeof data_header) (sizeof data_segment) = true /\
  doff_of_prefix (sizeof data_header - sizeof data_segment)
    = homa_set_doff_value /\
  tcp_header_bytes homa_set_doff_value = 40.
Proof.
  split; [reflexivity|]. split; [reflexivity|].
  apply (static_asserts_make_doff_right (sizeof data_header)
           (sizeof data_segment)).
  - vm_compute. split; [reflexivity | discriminate].
  - reflexivity.
Defined.

(** Without the bound on the header size the byte would overflow: a prefix
    of 64 bytes would be announced as an empty header. *)
Example doff_overflows_at_64 : doff_of_prefix 64 = 0.
Proof. reflexivity. Qed.

Lemma set_doff_shape (h : list Z) :
  homa_set_doff h = firstn 12 h ++ 160 :: skipn 13 h.
Proof. reflexivity. Qed.

(** X6: on a buffer that holds a [data_header], [homa_set_doff] writes 160
    into byte 12 and nothing else; the TCP header length that this byte
    announces is the offset of the first [data_segment]; setting it twice
    is the same as setting it once. *)
Theorem homa_set_doff_points_at_segment (h : list Z) :
  (12 < length h)%nat ->
  nth 12 (homa_set_doff h) 0 = 160 /\
  length (homa_set_doff h) = length h /\
  (forall i, i <> 12%nat -> nth i (homa_set_doff h) 0 = nth i h 0) /\
  Some (tcp_header_bytes (nth 12 (homa_set_doff h) 0))
    = offsetof data_header ["seg"%string] /\
  homa_set_doff (homa_set_doff h) = homa_set_doff h.
Proof.
  intros Hlen.
  assert (Hf : length (firstn 12 h) = 12%nat)
    by (rewrite length_firstn; lia).
  assert (H12 : nth 12 (homa_set_doff h) 0 = 160).
  { rewrite set_doff_shape, app_nth2; rewrite Hf; [reflexivity | lia]. }
  split; [exact H12|].
  split.
  { rewrite set_doff_shape, length_app. cbn [length].
    rewrite Hf, length_skipn. lia. }
  split.
  { intros i Hi. rewrite set_doff_shape.
    destruct (Nat.lt_ge_cases i 12) as [Hlt|Hge].
    - rewrite app_nth1 by lia. rewrite nth_firstn.
      destruct (i <? 12)%nat eqn:E; [reflexivity|].
      apply Nat.ltb_ge in E. lia.
    - rewrite app_nth2; rewrite Hf; [|lia].
      destruct (i - 12)%nat as [|k] eqn:E; [lia|].
      cbn [nth]. rewrite nth_skipn. f_equal. lia. }
  split; [rewrite H12; reflexivity|].
  rewrite (set_doff_shape (homa_set_doff h)).
  rewrite (set_doff_shape h) at 1 2.
  rewrite firstn_app, Hf, Nat.sub_diag, firstn_O, app_nil_r.
  rewrite firstn_firstn, Nat.min_id.
  rewrite skipn_app, Hf.
  rewrite (skipn_all2 (firstn 12 h)) by lia.
  reflexivity.
Qed.

Lemma homa_set_doff_points_at_segment_witness :
  homa_set_doff (repeat 0 48)
    = repeat 0 12 ++ 160 :: repeat 0 35 /\
  nth 12 (homa_set_doff (repeat 0 48)) 0 = 160.
Proof.
  split; [reflexivity|].
  apply (homa_set_doff_points_at_segment (repeat 0 48)).
  simpl. lia.
Defined.

(** X7: [homa_data_offset] gives back the offset that the sender stored
    with [htonl] in [seg.offset], whatever the byte orders of the two
    machines, as long as it is below 2^31; a larger unsigned value comes
    out negative, reduced by 2^32. *)
Theorem homa_data_offset_reads_htonl (sender receiver : endian)
  (pkt : list Z) (v : Z) :
  Forall is_byte pkt ->
  (44 <= length pkt)%nat ->
  0 <= v < 2 ^ 32 ->
  bytes_at pkt 40 4 = store sender 4 (htonl sender v) ->
  homa_data_offset receiver pkt = to_int v /\
  (v < 2 ^ 31 -> homa_data_offset receiver pkt = v) /\
  (2 ^ 31 <= v -> homa_data_offset receiver pkt = v - 2 ^ 32).
Proof.
  intros Hb Hlen Hv Hst.
  assert (Hoff : homa_data_offset receiver pkt = to_int v).
  { rewrite CodecFacts.homa_data_offset_big_endian by assumption.
    rewrite Hst. unfold htonl. rewrite CodecFacts.store_cpu_to_be.
    now rewrite CodecFacts.be_value_be_bytes. }
  rewrite Hoff. unfold to_int.
  split; [reflexivity|]. split; intros Hr.
  - rewrite Z.mod_small; lia.
  - replace (v + 2 ^ 31) with (v - 2 ^ 31 + 1 * 2 ^ 32) by lia.
    rewrite Z_mod_plus_full, Z.mod_small; lia.
Qed.

Lemma homa_data_offset_reads_htonl_witness :
  homa_data_offset BigEndian sample_data_packet = 70000 /\
  homa_data_offset LittleEndian sample_data_packet = 70000.
Proof.
  assert (Hb : Forall is_byte sample_data_packet).
  { unfold sample_data_packet. repeat constructor; vm_compute; discriminate. }
  split.
  - apply (homa_data_offset_reads_htonl LittleEndian BigEndian
             sample_data_packet 70000 Hb).
    + simpl. lia.
    + vm_compute. split; [discriminate | reflexivity].
    + reflexivity.
    + vm_compute. reflexivity.
  - apply (homa_data_offset_reads_htonl LittleEndian LittleEndian
             sample_data_packet 70000 Hb).
    + simpl. lia.
    + vm_compute. split; [discriminate | reflexivity].
    + reflexivity.
    + vm_compute. reflexivity.
Defined.

(** X8: filling in [doff] does not disturb the offset a receiver reads:
    [homa_data_offset] of a packet is the same before and after
    [homa_set_doff]. *)
Theorem homa_data_offset_after_set_doff (host : endian) (pkt : list Z) :
  (44 <= length pkt)%nat ->
  homa_data_offset host (homa_set_doff pkt) = homa_data_offset host pkt.
Proof.
  intros Hlen.
  assert (Hf : length (firstn 12 pkt) = 12%nat)
    by (rewrite length_firstn; lia).
  assert (Hsame : bytes_at (homa_set_doff pkt) 40 4 = bytes_at pkt 40 4).
  { unfold bytes_at. change (Z.to_nat 40) with 40%nat.
    rewrite set_doff_shape, skipn_app, Hf.
    rewrite (skipn_all2 (firstn 12 pkt)) by lia.
    change (40 - 12)%nat with 28%nat. rewrite app_nil_l.
    change (skipn 28 (160 :: skipn 13 pkt)) with (skipn 27 (skipn 13 pkt)).
    now rewrite skipn_skipn. }
  unfold homa_data_offset.
  change (offset_or_zero (offsetof data_header ["seg"; "offset"]%string))
    with 40.
  now rewrite Hsame.
Qed.

Lemma homa_data_offset_after_set_doff_witness :
  homa_data_offset BigEndian (homa_set_doff sample_data_packet)
    = homa_data_offset BigEndian sample_data_packet /\
  homa_data_offset BigEndian sample_data_packet = 70000.
Proof.
  split; [|reflexivity].
  apply (homa_data_offset_after_set_doff BigEndian sample_data_packet).
  simpl. lia.
Defined.

(** C9: the fixed prefix of a DATA packet,
    sizeof(struct data_header) - sizeof(struct data_segment), is 40 bytes,
    a multiple of 4; on any buffer that holds a [data_header],
    [homa_set_doff] stores 40 << 2 = 160 into the [doff] byte (byte 12),
    whose high-order four bits are then 10 = 40 / 4, the number of 4-byte
    chunks of the prefix, and whose low-order four bits are zero. *)
Theorem homa_set_doff_stores_prefix_words (h : list Z) :
  (Z.to_nat (sizeof data_header) <= length h)%nat ->
  sizeof data_header - sizeof data_segment = 40 /\
  40 mod 4 = 0 /\
  static_assert_prefix_aligned = true /\
  offsetof data_header ["common"; "doff"]%string = Some 12 /\
  nth 12 (homa_set_doff h) 0
    = Z.shiftl (sizeof data_header - sizeof data_segment) 2 /\
  nth 12 (homa_set_doff h) 0 = 160 /\
  Z.shiftr (nth 12 (homa_set_doff h) 0) 4 = 10 /\
  Z.shiftr (nth 12 (homa_set_doff h) 0) 4
    = (sizeof data_header - sizeof data_segment) / 4 /\
  Z.land (nth 12 (homa_set_doff h) 0) 15 = 0.
Proof.
  intros Hlen. change (Z.to_nat (sizeof data_header)) with 48%nat in Hlen.
  destruct (CodecFacts.homa_set_doff_byte h) as (H12 & _); [lia|].
  rewrite H12. repeat split; reflexivity.
Qed.

Lemma homa_set_doff_stores_prefix_words_witness :
  nth 12 (homa_set_doff sample_data_packet) 0 = 160 /\
  Z.shiftr (nth 12 (homa_set_doff sample_data_packet) 0) 4 = 10 /\
  Z.land (nth 12 (homa_set_doff sample_data_packet) 0) 15 = 0.
Proof.
  destruct (homa_set_doff_stores_prefix_words sample_data_packet)
    as (_ & _ & _ & _ & _ & H160 & Hhi & _ & Hlo).
  - simpl. lia.
  - repeat split; assumption.
Defined.

End OffloadFacts.

(** ** More on the pacer's fast-path hook *)

Module PacerTiming.
Import Pacer.

Section CheckPacer.

(** Whatever [homa_pacer_xmit] does to the state. *)
Variable homa_pacer_xmit : homa -> Z -> homa.

Lemma calls_iff_not_below (now : Z) (h : homa) (softirq : Z) :
  snd (check_pacer homa_pacer_xmit now h softirq)
    = [Call_homa_pacer_xmit softirq] <->
  throttled_rpcs h <> [] /\ idle_time h <= queue_limit now h.
Proof.
  unfold check_pacer.
  destruct (throttled_rpcs h) as [|r rest]; simpl.
  - split; [discriminate | intros [Hne _]; now elim Hne].
  - destruct (queue_limit now h <? idle_time h) eqn:Hc; simpl.
    + apply Z.ltb_lt in Hc. split; [discriminate | intros [_ Hle]; lia].
    + apply Z.ltb_ge in Hc. split; [intros _; split; [discriminate | lia]|].
      reflexivity.
Qed.

(** X9: slack only grows with time and shrinks with queued work.  While
    nothing wraps, if [check_pacer] invokes the pacer at some cycle count
    it also does at any later one in the same state, and if it does for
    some [link_idle_time] it also does for any earlier one. *)
Theorem check_pacer_monotone (now later : Z) (h h' : homa) (softirq : Z) :
  0 <= now <= later ->
  0 <= max_nic_queue_cycles h ->
  later + max_nic_queue_cycles h < 2 ^ 64 ->
  0 <= link_idle_time h' <= link_idle_time h ->
  link_idle_time h < 2 ^ 63 ->
  throttled_rpcs h' = throttled_rpcs h ->
  max_nic_queue_cycles h' = max_nic_queue_cycles h ->
  snd (check_pacer homa_pacer_xmit now h softirq)
    = [Call_homa_pacer_xmit softirq] ->
  snd (check_pacer homa_pacer_xmit later h' softirq)
    = [Call_homa_pacer_xmit softirq].
Proof.
  intros Hnow Hmax Hsum Hidle Hlim Hthr Hq Hcall.
  apply calls_iff_not_below in Hcall. destruct Hcall as [Hne Hle].
  apply calls_iff_not_below. rewrite Hthr. split; [assumption|].
  unfold idle_time, queue_limit, to_u64 in *. rewrite Hq.
  rewrite Z.mod_small in Hle by lia.
  rewrite (Z.mod_small (now + _)) in Hle by lia.
  rewrite !Z.mod_small by lia. lia.
Qed.

End CheckPacer.

Lemma check_pacer_monotone_witness :
  snd (check_pacer (fun h _ => h) 5000 (sample_homa 6000) 1)
    = [Call_homa_pacer_xmit 1] /\
  snd (check_pacer (fun h _ => h) 5200 (sample_homa 5900) 1)
    = [Call_homa_pacer_xmit 1].
Proof.
  split; [reflexivity|].
  apply (check_pacer_monotone (fun h _ => h) 5000 5200 (sample_homa 6000)
           (sample_homa 5900) 1).
  - lia.
  - simpl. lia.
  - simpl. lia.
  - simpl. lia.
  - simpl. lia.
  - reflexivity.
  - reflexivity.
  - reflexivity.
Defined.

End PacerTiming.

(** ** Per-core metrics *)

Module MetricsFacts.
Import Wire Metrics.

(** X10: the arrays [packets_sent] and [packets_received] have
    [BOGUS - DATA] = 7 entries, and [type - DATA] is an index into them
    exactly for the seven packet types that have a header; different types
    have different indices. *)
Theorem packet_counter_index :
  NUM_PACKET_COUNTS = 7 /\
  (forall t,
     (exists h, header_of t = Some h) <->
     0 <= opcode t - opcode DATA < NUM_PACKET_COUNTS) /\
  (forall t1 t2,
     opcode t1 - opcode DATA = opcode t2 - opcode DATA -> t1 = t2).
Proof.
  split; [reflexivity|]. split.
  - intros t. split.
    + intros [h Hh]. destruct t; simpl in Hh; try discriminate;
        vm_compute; split; discriminate || reflexivity.
    + intros [_ Hlt]. destruct t; simpl; eauto.
      vm_compute in Hlt. discriminate.
  - intros t1 t2 H. destruct t1, t2; try reflexivity;
      vm_compute in H; discriminate.
Qed.

Lemma set_nth_length {A : Type} (x : A) (l : list A) :
  forall i, length (set_nth i x l) = length l.
Proof.
  induction l as [|y l IH]; intros [|i]; simpl; try reflexivity.
  now rewrite IH.
Qed.

Lemma nth_error_set_nth_same {A : Type} (x : A) (l : list A) :
  forall i, (i < length l)%nat -> nth_error (set_nth i x l) i = Some x.
Proof.
  induction l as [|y l IH]; intros [|i] Hi; simpl in *; try lia.
  - reflexivity.
  - apply IH. lia.
Qed.

Lemma nth_error_set_nth_other {A : Type} (x : A) (l : list A) :
  forall i j, i <> j -> nth_error (set_nth i x l) j = nth_error l j.
Proof.
  induction l as [|y l IH]; intros [|i] [|j] Hij; simpl; try reflexivity.
  - lia.
  - apply IH. lia.
Qed.

Lemma total_set_nth (l : list homa_metrics) (m : metric) :
  forall i r r',
    nth_error l i = Some r ->
    total (set_nth i r' l) m = total l m - r m + r' m.
Proof.
  induction l as [|y l IH]; intros [|i] r r' Hr; simpl in *;
    try discriminate.
  - inversion Hr; subst. lia.
  - rewrite (IH i r r' Hr). lia.
Qed.

Lemma INC_METRIC_length (cpu : nat) (m : metric) (count : Z)
  (all : list homa_metrics) :
  length (INC_METRIC cpu m count all) = length all.
Proof.
  unfold INC_METRIC. destruct (nth_error all cpu); [|reflexivity].
  apply set_nth_length.
Qed.

(** X11: [INC_METRIC] adds the count, modulo 2^64, to the named counter of
    the executing core's record and changes no other counter of any core. *)
Theorem INC_METRIC_one_counter (cpu : nat) (m : metric) (count : Z)
  (all : list homa_metrics) :
  (cpu < length all)%nat ->
  counter (INC_METRIC cpu m count all) cpu m
    = add_u64 (counter all cpu m) count /\
  (forall cpu' m',
     cpu' <> cpu \/ m' <> m ->
     counter (INC_METRIC cpu m count all) cpu' m' = counter all cpu' m') /\
  length (INC_METRIC cpu m count all) = length all.
Proof.
  intros Hcpu. unfold INC_METRIC, counter.
  destruct (nth_error all cpu) as [r|] eqn:Hr;
    [|apply nth_error_None in Hr; lia].
  split.
  { rewrite nth_error_set_nth_same by assumption. unfold bump.
    destruct (metric_eq_dec m m); [reflexivity | contradiction]. }
  split; [|apply set_nth_length].
  intros cpu' m' Hne.
  destruct (Nat.eq_dec cpu cpu') as [<-|Hc].
  - rewrite nth_error_set_nth_same by assumption. rewrite Hr. unfold bump.
    destruct (metric_eq_dec m' m) as [->|]; [|reflexivity].
    destruct Hne as [Hne|Hne]; now elim Hne.
  - now rewrite nth_error_set_nth_other.
Qed.

Lemma INC_METRIC_one_counter_witness :
  counter (INC_METRIC 1 pacer_cycles 5 [zero_metrics; zero_metrics])
    1 pacer_cycles = 5 /\
  counter (INC_METRIC 1 pacer_cycles 5 [zero_metrics; zero_metrics])
    0 pacer_cycles = 0.
Proof.
  destruct (INC_METRIC_one_counter 1 pacer_cycles 5
              [zero_metrics; zero_metrics]) as (Hsame & Hother & _).
  - simpl. lia.
  - split.
    + rewrite Hsame. reflexivity.
    + rewrite Hother; [reflexivity | left; discriminate].
Defined.

Lemma total_INC_METRIC (cpu : nat) (m' : metric) (count : Z)
  (all : list homa_metrics) (m : metric) :
  (cpu < length all)%nat ->
  total (INC_METRIC cpu m' count all) m mod 2 ^ 64
    = (total all m + (if metric_eq_dec m' m then count else 0)) mod 2 ^ 64.
Proof.
  intros Hcpu. unfold INC_METRIC.
  destruct (nth_error all cpu) as [r|] eqn:Hr;
    [|apply nth_error_None in Hr; lia].
  rewrite (total_set_nth all m cpu r _ Hr). unfold bump.
  destruct (metric_eq_dec m m') as [->|Hne].
  - destruct (metric_eq_dec m' m') as [_|]; [|contradiction].
    unfold add_u64.
    rewrite Zplus_mod_idemp_r.
    f_equal. lia.
  - destruct (metric_eq_dec m' m) as [->|]; [now elim Hne|].
    f_equal. lia.
Qed.

(** X12: the counters are per core, but their sum over the cores does not
    depend on which core executed which [INC_METRIC]: after any series of
    increments the total of a counter is, modulo 2^64, its total before
    plus the counts added to it. *)
Theorem totals_add_up (incs : list (nat * metric * Z)) :
  forall (all : list homa_metrics) (m : metric),
    Forall (fun i => (fst (fst i) < length all)%nat) incs ->
    total (run_incs incs all) m mod 2 ^ 64
      = (total all m + added incs m) mod 2 ^ 64.
Proof.
  induction incs as [|[[cpu m'] count] rest IH]; intros all m Hok.
  - simpl. now rewrite Z.add_0_r.
  - inversion Hok as [|? ? Hcpu Hrest]; subst. simpl in Hcpu.
    cbn [run_incs added].
    rewrite IH.
    + rewrite <- Zplus_mod_idemp_l, total_INC_METRIC by assumption.
      rewrite Zplus_mod_idemp_l. f_equal. lia.
    + rewrite INC_METRIC_length. exact Hrest.
Qed.

Lemma totals_add_up_witness :
  total (run_incs sample_incs [zero_metrics; zero_metrics]) pacer_cycles
    mod 2 ^ 64 = 11 /\
  added sample_incs pacer_cycles = 2 ^ 64 + 11.
Proof.
  split; [|reflexivity].
  rewrite (totals_add_up sample_incs [zero_metrics; zero_metrics]
             pacer_cycles).
  - reflexivity.
  - unfold sample_incs. repeat constructor.
Defined.

End MetricsFacts.

(** ** What all packet headers share *)

Module LayoutFacts.
Import Wire.

(** X13: every one of the seven packet headers begins with the common
    header, so the members that dispatch needs lie at the same bytes in
    every packet, whatever its type: the ports in bytes 0-3, [doff] in
    byte 12, [type] in byte 13 and the RPC id in bytes 20-27; and no
    header is shorter than the common header. *)
Theorem common_members_at_fixed_bytes :
  Forall
    (fun h =>
       member_bytes h ["common"; "sport"]%string = Some (0, 1) /\
       member_bytes h ["common"; "dport"]%string = Some (2, 3) /\
       member_bytes h ["common"; "doff"]%string = Some (12, 12) /\
       member_bytes h ["common"; "type"]%string = Some (13, 13) /\
       member_bytes h ["common"; "id"]%string = Some (20, 27) /\
       sizeof common_header <= sizeof h)
    packet_headers.
Proof.
  unfold packet_headers.
  repeat constructor; vm_compute; discriminate.
Qed.

End LayoutFacts.
